(** * issuor: the scanner package (internal/scanner/scanner.go)

    A shallow embedding of the scanner: the association classifier, the item
    extractor, the per-node filter pipeline of [search], scanner construction
    ([New]) and the orchestration of [Scan], whose goroutines, result channel
    and shared cancellable context are modelled as an interleaving machine
    driven by an arbitrary schedule. *)

From Stdlib Require Import ZArith String Ascii List Lia.
From stdpp Require Import base decidable option list gmap sets fin_sets strings.
From stdpp Require Import sorting pretty.

#[local] Set Warnings "-clear-no-such-hyp".

Local Open Scope string_scope.
Local Open Scope list_scope.
Local Open Scope Z_scope.

(** ** Library functions of Go's [strings], [strconv]

    [strings.ToLower], [strings.TrimSpace] and the [%q] verb are Unicode-aware
    library code.  The development is parametric in them; [ascii_strings]
    below is their restriction to ASCII, used to run the model. *)

Class GoStrings := {
  ToLower : string → string;
  TrimSpace : string → string;
  Quote : string → string
}.

Module Ascii7.

Definition lower (c : ascii) : ascii :=
  let n := nat_of_ascii c in
  if (Nat.leb 65 n && Nat.leb n 90)%bool then ascii_of_nat (n + 32) else c.

Fixpoint to_lower (s : string) : string :=
  match s with
  | EmptyString => EmptyString
  | String c r => String (lower c) (to_lower r)
  end.

Definition is_space (c : ascii) : bool :=
  let n := nat_of_ascii c in
  (Nat.eqb n 32 || (Nat.leb 9 n && Nat.leb n 13))%bool.

Fixpoint trim_left (s : string) : string :=
  match s with
  | EmptyString => EmptyString
  | String c r => if is_space c then trim_left r else s
  end.

Fixpoint trim_right (s : string) : string :=
  match s with
  | EmptyString => EmptyString
  | String c r =>
      match trim_right r with
      | EmptyString => if is_space c then EmptyString else String c EmptyString
      | r' => String c r'
      end
  end.

Definition trim_space (s : string) : string := trim_right (trim_left s).

Definition dquote : string := String (ascii_of_nat 34) EmptyString.

Definition quote (s : string) : string := (dquote ++ s ++ dquote)%string.

End Ascii7.

Definition ascii_strings : GoStrings :=
  {| ToLower := Ascii7.to_lower;
     TrimSpace := Ascii7.trim_space;
     Quote := Ascii7.quote |}.

(** [strings.HasPrefix s prefix] compares bytes, as [String.prefix] does. *)
Definition HasPrefix (s prefix : string) : bool := String.prefix prefix s.

(** ** Data model *)

(** A Go [error] value is represented by its message; [None] is [nil]. *)
Definition error := string.

Definition graphPageSize : Z := 100.

(** [githubv4.DateTime] wraps a [time.Time]; only its identity matters here. *)
Definition DateTime := Z.

Record Item := mkItem {
  Repo : string;
  Number : Z;
  Title : string;
  Author : string;
  CreatedAt : DateTime
}.

(** [Item{}] *)
Definition zeroItem : Item := mkItem "" 0 "" "" 0.

Definition Audience := string.
Definition AudienceAll : Audience := "all".
Definition AudienceInternal : Audience := "internal".
Definition AudienceExternal : Audience := "external".

Record Result := mkResult {
  ExternalIssues : list Item;
  InternalIssues : list Item;
  ExternalPRs : list Item;
  InternalPRs : list Item;
  TotalRepos : Z;
  ResIncludeIssues : bool;
  ResIncludePRs : bool;
  ResAudience : Audience
}.

Record Config := mkConfig {
  Organization : string;
  RepoPrefix : string;
  SkipUsers : list string;
  IncludeIssues : bool;
  IncludePRs : bool;
  CfgAudience : Audience
}.

(** A Go [map[string]struct{}]: [None] is the nil map, which reads as empty. *)
Abbreviation stringSet := (option (gset string)).

Definition setLen (m : stringSet) : Z :=
  match m with
  | None => 0
  | Some g => Z.of_nat (size g)
  end.

Definition setHas (m : stringSet) (k : string) : bool :=
  match m with
  | None => false
  | Some g => bool_decide (k ∈ g)
  end.

(** [githubv4.ID] is declared as [interface{}]: a value of that type is nil,
    holds a string, or holds a value of another dynamic type.  The comparison
    [id == ""] is true only for the second kind, with the empty string. *)
Inductive ID :=
  | IDNil
  | IDString (s : string)
  | IDOther.

Definition idIsEmptyString (id : ID) : bool :=
  match id with
  | IDString s => bool_decide (s = "")
  | _ => false
  end.

(** [githubv4.CommentAuthorAssociation] is a string type; these are the three
    of its constants the scanner names. *)
Definition CommentAuthorAssociation := string.
Definition CommentAuthorAssociationMember : CommentAuthorAssociation := "MEMBER".
Definition CommentAuthorAssociationOwner : CommentAuthorAssociation := "OWNER".
Definition CommentAuthorAssociationCollaborator : CommentAuthorAssociation :=
  "COLLABORATOR".

Record issueNode := mkIssueNode {
  Issue_ID : ID;
  Issue_Number : Z;
  Issue_Title : string;
  Issue_CreatedAt : DateTime;
  Issue_AuthorAssociation : CommentAuthorAssociation;
  Issue_Author_Login : string;
  Issue_Repository_Name : string
}.

Record pullRequestNode := mkPullRequestNode {
  PR_ID : ID;
  PR_Number : Z;
  PR_Title : string;
  PR_CreatedAt : DateTime;
  PR_AuthorAssociation : CommentAuthorAssociation;
  PR_Author_Login : string;
  PR_Repository_Name : string
}.

Record searchNode := mkSearchNode {
  Issue : issueNode;
  PullRequest : pullRequestNode
}.

(** The [Search] field of [searchQuery], as one page fetch fills it. *)
Record searchQuery := mkSearchQuery {
  IssueCount : Z;
  HasNextPage : bool;
  EndCursor : string;
  Nodes : list searchNode
}.

(** ** Pure helpers *)

Definition isInternalAssociation (assoc : CommentAuthorAssociation) : bool :=
  if bool_decide (assoc = CommentAuthorAssociationMember) then true
  else if bool_decide (assoc = CommentAuthorAssociationOwner) then true
  else if bool_decide (assoc = CommentAuthorAssociationCollaborator) then true
  else false.

Definition extractItem (node : searchNode) (isPR : bool)
  : Item * string * string * bool * bool :=
  if isPR then
    let pr := PullRequest node in
    if idIsEmptyString (PR_ID pr) || bool_decide (PR_Repository_Name pr = "")
    then (zeroItem, "", "", false, false)
    else
      let repoName := PR_Repository_Name pr in
      let author := PR_Author_Login pr in
      let itm := mkItem repoName (PR_Number pr) (PR_Title pr) author (PR_CreatedAt pr) in
      (itm, repoName, author, isInternalAssociation (PR_AuthorAssociation pr), true)
  else
    let iss := Issue node in
    if idIsEmptyString (Issue_ID iss) || bool_decide (Issue_Repository_Name iss = "")
    then (zeroItem, "", "", false, false)
    else
      let repoName := Issue_Repository_Name iss in
      let author := Issue_Author_Login iss in
      let itm := mkItem repoName (Issue_Number iss) (Issue_Title iss) author (Issue_CreatedAt iss) in
      (itm, repoName, author, isInternalAssociation (Issue_AuthorAssociation iss), true).

Definition mergeRepoSets (dst : gset string) (src : stringSet) : gset string :=
  match src with
  | None => dst
  | Some m => dst ∪ m
  end.

Section WithStrings.
Context `{!GoStrings}.

Definition buildSkipStep (m : gset string) (u : string) : gset string :=
  let u := TrimSpace (ToLower u) in
  if bool_decide (u = "") then m else {[u]} ∪ m.

Definition buildSkipMap (users : list string) : stringSet :=
  match users with
  | [] => None
  | _ => Some (fold_left buildSkipStep users ∅)
  end.

End WithStrings.

(** ** The scanner and its transport *)

(** The context a caller hands to [Scan]: the background context, which is
    never done, or one its owner may cancel (and may already have). *)
Inductive Ctx :=
  | Background
  | Cancelable (done : bool).

Definition ctxErr (c : Ctx) : bool :=
  match c with
  | Background => false
  | Cancelable d => d
  end.

Record searchParams := mkSearchParams {
  querySuffix : string;
  isPR : bool
}.

Record segment := mkSegment {
  seg_external : list Item;
  seg_internal : list Item;
  seg_repos : stringSet;
  seg_isPR : bool;
  seg_err : option error
}.

Section Scanner.
Context `{!GoStrings}.

(** State of the transport behind the client (the network, the remote
    service): any type. *)
Context {T : Type}.

(** [GraphQLClient.Query(ctx, &q, variables)]: from the transport state,
    whether [ctx] is done, and the variables [query], [pageSize], [cursor],
    to the new transport state and either an error or the filled query. *)
Definition GraphQLClient : Type :=
  T → bool → string → Z → option string → T * (error + searchQuery).

Record Scanner := mkScanner {
  cfg : Config;
  graph : GraphQLClient;
  skipUsers : stringSet
}.

(** What [New] tests of the organization and of the prefix. *)
Definition blank (x : string) : Prop := TrimSpace x = "".

Definition validAudience (a : Audience) : bool :=
  bool_decide (a = AudienceAll) || bool_decide (a = AudienceInternal)
  || bool_decide (a = AudienceExternal).

(** [New], without the options: the only one the package offers installs a
    logger, which observes page sizes and changes nothing else. *)
Definition New (c : Config) (g : option GraphQLClient) : error + Scanner :=
  match g with
  | None => inl "github graphql client is required"
  | Some g =>
      if bool_decide (TrimSpace (Organization c) = "") then
        inl "organization is required"
      else if bool_decide (TrimSpace (RepoPrefix c) = "") then
        inl "repository prefix is required"
      else
        let both := negb (IncludeIssues c) && negb (IncludePRs c) in
        let issues := if both then true else IncludeIssues c in
        let prs := if both then true else IncludePRs c in
        let aud := if bool_decide (CfgAudience c = "") then AudienceAll
                   else CfgAudience c in
        if negb (validAudience aud) then
          inl ("invalid audience " ++ Quote aud
               ++ " (expected all, internal, or external)")%string
        else
          let c' := mkConfig (Organization c) (RepoPrefix c) (SkipUsers c)
                             issues prs aud in
          inr (mkScanner c' g (buildSkipMap (SkipUsers c')))
  end.

(** *** The body of [search]'s loop over the nodes of one page *)

Definition buffers : Type := list Item * list Item * gset string.

Definition skipped (s : Scanner) (author : string) : bool :=
  (0 <? setLen (skipUsers s)) && negb (bool_decide (author = ""))
  && setHas (skipUsers s) (ToLower author).

Definition searchOne (s : Scanner) (params : searchParams)
    (acc : buffers) (node : searchNode) : buffers :=
  let '(external, internal, repos) := acc in
  let '(item, repoName, author, internalAuthor, ok) :=
    extractItem node (isPR params) in
  if negb ok then acc
  else if negb (HasPrefix repoName (RepoPrefix (cfg s))) then acc
  else
    let repos := {[repoName]} ∪ repos in
    if skipped s author then (external, internal, repos)
    else if bool_decide (CfgAudience (cfg s) = AudienceInternal)
            && negb internalAuthor then (external, internal, repos)
    else if bool_decide (CfgAudience (cfg s) = AudienceExternal)
            && internalAuthor then (external, internal, repos)
    else if internalAuthor then (external, internal ++ [item], repos)
    else (external ++ [item], internal, repos).

Definition searchNodes (s : Scanner) (params : searchParams)
    (acc : buffers) (nodes : list searchNode) : buffers :=
  fold_left (searchOne s params) nodes acc.

(** The repository names of the nodes that pass extraction and the prefix
    filter, in page order: what the claim on repository tracking speaks of. *)
Definition passesPrefix (s : Scanner) (params : searchParams)
    (node : searchNode) : option string :=
  let '(_, repoName, _, _, ok) := extractItem node (isPR params) in
  if ok && HasPrefix repoName (RepoPrefix (cfg s)) then Some repoName
  else None.

Definition tracked (s : Scanner) (params : searchParams)
    (nodes : list searchNode) : list string :=
  omap (passesPrefix s params) nodes.

Definition queryString (s : Scanner) (params : searchParams) : string :=
  ("org:" ++ Organization (cfg s) ++ " " ++ querySuffix params)%string.

(** *** [Scan]: goroutines, result channel and shared context

    [Scan] starts one goroutine per enabled category ([runSearch]), one that
    closes the result channel once both have finished, and then ranges over
    the channel.  The machine below has one actor per goroutine plus the
    owner of the caller's context; a schedule is a list of actors, and an
    actor that cannot move (a blocked send or receive, a finished
    goroutine) leaves the state as it is. *)

Inductive worker :=
  | WOff
  | WFetch (cursor : option string) (external internal : list Item)
           (repos : gset string)
  | WFailed (e : error)
  | WSend (seg : segment)
  | WDone (seg : segment).

Inductive orchestrator :=
  | MLoop (res : Result) (repoSet : gset string)
  | MReturned (res : Result) (e : option error).

Record state := mkState {
  net : T;
  parent : Ctx;
  cancelled : bool;
  issuesW : worker;
  prsW : worker;
  resultCh : list segment;
  closed : bool;
  main : orchestrator
}.

Inductive actor :=
  | ARun (pr : bool)
  | ACloser
  | AMain
  | AParent.

(** Capacity of [resultCh]: [make(chan segment, 2)]. *)
Definition resultChCap : nat := 2.

(** [ctx.Err() != nil] for the context derived by [context.WithCancel]. *)
Definition ctxDone (st : state) : bool := cancelled st || ctxErr (parent st).

Definition workerOf (pr : bool) (st : state) : worker :=
  if pr then prsW st else issuesW st.

Definition setWorker (pr : bool) (w : worker) (st : state) : state :=
  if pr then
    mkState (net st) (parent st) (cancelled st) (issuesW st) w
            (resultCh st) (closed st) (main st)
  else
    mkState (net st) (parent st) (cancelled st) w (prsW st)
            (resultCh st) (closed st) (main st).

Definition setNet (n : T) (st : state) : state :=
  mkState n (parent st) (cancelled st) (issuesW st) (prsW st)
          (resultCh st) (closed st) (main st).

(** [cancel()] *)
Definition cancel (st : state) : state :=
  mkState (net st) (parent st) true (issuesW st) (prsW st)
          (resultCh st) (closed st) (main st).

Definition setResultCh (ch : list segment) (st : state) : state :=
  mkState (net st) (parent st) (cancelled st) (issuesW st) (prsW st)
          ch (closed st) (main st).

Definition setMain (m : orchestrator) (st : state) : state :=
  mkState (net st) (parent st) (cancelled st) (issuesW st) (prsW st)
          (resultCh st) (closed st) m.

(** One move of the goroutine [runSearch(params)]: a page fetch with the
    processing of its nodes, the call of [cancel] after a failed [search],
    or the send of the segment. *)
Definition runSearch (s : Scanner) (params : searchParams) (st : state)
  : state :=
  match workerOf (isPR params) st with
  | WFetch cursor external internal repos =>
      let '(n, r) := graph s (net st) (ctxDone st) (queryString s params)
                           graphPageSize cursor in
      match r with
      | inl e => setWorker (isPR params) (WFailed e) (setNet n st)
      | inr q =>
          let '(external, internal, repos) :=
            searchNodes s params (external, internal, repos) (Nodes q) in
          if HasNextPage q then
            setWorker (isPR params)
              (WFetch (Some (EndCursor q)) external internal repos)
              (setNet n st)
          else
            setWorker (isPR params)
              (WSend (mkSegment external internal (Some repos)
                                (isPR params) None))
              (setNet n st)
      end
  | WFailed e =>
      setWorker (isPR params)
        (WSend (mkSegment [] [] None (isPR params) (Some e)))
        (cancel st)
  | WSend seg =>
      if (length (resultCh st) <? resultChCap)%nat then
        setWorker (isPR params) (WDone seg)
          (setResultCh (resultCh st ++ [seg]) st)
      else st
  | WOff | WDone _ => st
  end.

Definition finished (w : worker) : bool :=
  match w with
  | WOff | WDone _ => true
  | _ => false
  end.

(** [wg.Wait(); close(resultCh)] *)
Definition closer (st : state) : state :=
  if finished (issuesW st) && finished (prsW st) then
    mkState (net st) (parent st) (cancelled st) (issuesW st) (prsW st)
            (resultCh st) true (main st)
  else st.

Definition merge (res : Result) (seg : segment) : Result :=
  if seg_isPR seg then
    mkResult (ExternalIssues res) (InternalIssues res)
             (ExternalPRs res ++ seg_external seg)
             (InternalPRs res ++ seg_internal seg)
             (TotalRepos res) (ResIncludeIssues res) (ResIncludePRs res)
             (ResAudience res)
  else
    mkResult (ExternalIssues res ++ seg_external seg)
             (InternalIssues res ++ seg_internal seg)
             (ExternalPRs res) (InternalPRs res)
             (TotalRepos res) (ResIncludeIssues res) (ResIncludePRs res)
             (ResAudience res).

Definition withTotalRepos (res : Result) (n : Z) : Result :=
  mkResult (ExternalIssues res) (InternalIssues res) (ExternalPRs res)
           (InternalPRs res) n (ResIncludeIssues res) (ResIncludePRs res)
           (ResAudience res).

(** One iteration of [for seg := range resultCh], or the return after the
    loop; either return runs the deferred [cancel]. *)
Definition receive (st : state) : state :=
  match main st with
  | MLoop res repoSet =>
      match resultCh st with
      | seg :: rest =>
          match seg_err seg with
          | Some e =>
              cancel (setMain (MReturned res (Some e)) (setResultCh rest st))
          | None =>
              setMain (MLoop (merge res seg)
                             (mergeRepoSets repoSet (seg_repos seg)))
                      (setResultCh rest st)
          end
      | [] =>
          if closed st then
            cancel (setMain
                      (MReturned
                         (withTotalRepos res (Z.of_nat (size repoSet))) None)
                      st)
          else st
      end
  | MReturned _ _ => st
  end.

(** The owner of the caller's context cancels it. *)
Definition parentCancel (st : state) : state :=
  match parent st with
  | Background => st
  | Cancelable _ =>
      mkState (net st) (Cancelable true) (cancelled st) (issuesW st)
              (prsW st) (resultCh st) (closed st) (main st)
  end.

Definition issueParams : searchParams := mkSearchParams "is:open is:issue" false.
Definition prParams : searchParams := mkSearchParams "is:open is:pr" true.

Definition paramsOf (pr : bool) : searchParams :=
  if pr then prParams else issueParams.

Definition step (s : Scanner) (a : actor) (st : state) : state :=
  match a with
  | ARun pr => runSearch s (paramsOf pr) st
  | ACloser => closer st
  | AMain => receive st
  | AParent => parentCancel st
  end.

Definition run (s : Scanner) (sch : list actor) (st : state) : state :=
  fold_left (λ st a, step s a st) sch st.

(** [context.WithCancel(parent)] panics on a nil parent. *)
Definition WithCancel (parent : option Ctx) : option Ctx :=
  match parent with
  | None => None
  | Some p => Some p
  end.

(** [Scan] up to the start of its receive loop: [None] is a panic. *)
Definition start (s : Scanner) (ctx : option Ctx) (n : T) : option state :=
  let ctx := match ctx with
             | None => Some Background
             | Some _ => ctx
             end in
  match WithCancel ctx with
  | None => None
  | Some p =>
      let res := mkResult [] [] [] [] 0 (IncludeIssues (cfg s))
                          (IncludePRs (cfg s)) (CfgAudience (cfg s)) in
      Some (mkState n p false
              (if IncludeIssues (cfg s) then WFetch None [] [] ∅ else WOff)
              (if IncludePRs (cfg s) then WFetch None [] [] ∅ else WOff)
              [] false (MLoop res ∅))
  end.

Inductive outcome :=
  | Panicked
  | Pending
  | Returned (res : Result) (e : option error).

Definition outcomeOf (st : state) : outcome :=
  match main st with
  | MLoop _ _ => Pending
  | MReturned res e => Returned res e
  end.

(** What the caller of [Scan] has got under the schedule [sch]. *)
Definition Scan (s : Scanner) (ctx : option Ctx) (n : T) (sch : list actor)
  : outcome :=
  match start s ctx n with
  | None => Panicked
  | Some st => outcomeOf (run s sch st)
  end.

(** The state the machine is in after the schedule [sch]. *)
Definition stateAt (s : Scanner) (ctx : option Ctx) (n : T)
    (sch : list actor) : option state :=
  run s sch <$> start s ctx n.

(** *** Vocabulary for the properties of the machine *)

Global Instance actor_eq_dec : EqDecision actor.
Proof. solve_decision. Defined.

(** [subseq xs ys]: the actors [xs] get their turns, in this order, somewhere
    in the schedule [ys]. *)
Fixpoint subseq (xs ys : list actor) : bool :=
  match xs, ys with
  | [], _ => true
  | _ :: _, [] => false
  | x :: xs', y :: ys' =>
      if bool_decide (x = y) then subseq xs' ys' else subseq xs ys'
  end.

(** Whether the segment of category [pr] sits in the channel. *)
Definition inCh (pr : bool) (st : state) : bool :=
  existsb (λ seg, Bool.eqb (seg_isPR seg) pr) (resultCh st).

(** The segment of category [pr] that the loop of [Scan] has received. *)
Definition received (pr : bool) (st : state) : option segment :=
  match workerOf pr st with
  | WDone seg => if inCh pr st then None else Some seg
  | _ => None
  end.

Definition reposOf (seg : segment) : gset string := default ∅ (seg_repos seg).

(** The repo set that the run of category [pr] has reported; empty for a
    category that is not enabled. *)
Definition perCategory (pr : bool) (st : state) : gset string :=
  match workerOf pr st with
  | WDone seg => reposOf seg
  | _ => ∅
  end.

(** Position, counted from one, of the first segment in the channel that
    carries an error. *)
Fixpoint firstErr (ch : list segment) : option nat :=
  match ch with
  | [] => None
  | seg :: rest =>
      match seg_err seg with
      | Some _ => Some 1%nat
      | None => S <$> firstErr rest
      end
  end.

(** How many turns are still needed before [Scan] returns an error, once
    the run of category [pr] has failed: the turns of that run up to its
    send, then those of the loop up to the failed segment. *)
Definition togoOf (m : orchestrator) (ch : list segment) (w : worker)
  : option nat :=
  match m with
  | MReturned _ (Some _) => Some 0%nat
  | MReturned _ None => None
  | MLoop _ _ =>
      match firstErr ch with
      | Some k => Some k
      | None =>
          match w with
          | WFailed _ => Some 4%nat
          | WSend seg =>
              match seg_err seg with
              | Some _ => Some 3%nat
              | None => None
              end
          | _ => None
          end
      end
  end.

Definition togo (pr : bool) (st : state) : option nat :=
  togoOf (main st) (resultCh st) (workerOf pr st).

(** *** The invariant of the machine *)

Definition pending (w : worker) : bool :=
  match w with
  | WFetch _ _ _ _ | WFailed _ | WSend _ => true
  | WOff | WDone _ => false
  end.

(** A segment carries the tag of the run that built it. *)
Definition tagged (pr : bool) (w : worker) : Prop :=
  match w with
  | WSend seg | WDone seg => seg_isPR seg = pr
  | _ => True
  end.

Definition itemsOf (f : segment → list Item) (o : option segment)
  : list Item :=
  match o with
  | Some seg => f seg
  | None => []
  end.

Definition merged (res : Result) (st : state) : Prop :=
  ExternalIssues res = itemsOf seg_external (received false st)
  ∧ InternalIssues res = itemsOf seg_internal (received false st)
  ∧ ExternalPRs res = itemsOf seg_external (received true st)
  ∧ InternalPRs res = itemsOf seg_internal (received true st).

Definition mainOK (st : state) : Prop :=
  match main st with
  | MLoop res repoSet =>
      merged res st
      ∧ repoSet = from_option reposOf ∅ (received false st)
                  ∪ from_option reposOf ∅ (received true st)
      ∧ ∀ pr seg, received pr st = Some seg → seg_err seg = None
  | MReturned res None =>
      merged res st
      ∧ finished (issuesW st) = true ∧ finished (prsW st) = true
      ∧ resultCh st = []
      ∧ (∀ pr seg, workerOf pr st = WDone seg → seg_err seg = None)
      ∧ TotalRepos res
        = Z.of_nat (size (perCategory false st ∪ perCategory true st))
  | MReturned res (Some e) =>
      ∃ pr seg, received pr st = Some seg ∧ seg_err seg = Some e
                ∧ ∀ seg', received (negb pr) st = Some seg' →
                          seg_err seg' = None
  end.

Record Inv (st : state) : Prop := mkInv {
  inv_tag : ∀ pr, tagged pr (workerOf pr st);
  inv_ch : ∀ seg, seg ∈ resultCh st → workerOf (seg_isPR seg) st = WDone seg;
  inv_nodup : NoDup (seg_isPR <$> resultCh st);
  inv_closed : closed st = true →
               finished (issuesW st) = true ∧ finished (prsW st) = true;
  inv_main : mainOK st
}.

Definition plan (pr : bool) (k : nat) : list actor :=
  match k with
  | 0%nat => []
  | 1%nat => [AMain]
  | 2%nat => [AMain; AMain]
  | 3%nat => [ARun pr; AMain; AMain]
  | _ => [ARun pr; ARun pr; AMain; AMain]
  end.

End Scanner.

Arguments GraphQLClient T : clear implicits.
Arguments Scanner T : clear implicits.
Arguments state T : clear implicits.

(** ** A concrete organization, to run the model on

    Organization [acme], prefix [infra-]: the issue search has one page with
    an issue of [infra-core] by member [alice]; the pull-request search has
    one page with a pull request of [infra-core] by outsider [bob].  The
    healthy client honours a done context; the broken one fails every issue
    search. *)

Module Demo.

Definition zeroIssue : issueNode := mkIssueNode IDNil 0 "" 0 "" "" "".
Definition zeroPR : pullRequestNode := mkPullRequestNode IDNil 0 "" 0 "" "" "".

Definition aliceIssue : searchNode :=
  mkSearchNode
    (mkIssueNode (IDString "I_1") 1 "disk full" 1700000000 "MEMBER" "alice"
                 "infra-core")
    zeroPR.

Definition bobPR : searchNode :=
  mkSearchNode
    zeroIssue
    (mkPullRequestNode (IDString "PR_2") 2 "fix typo" 1700000100 "NONE" "bob"
                       "infra-core").

(** A pull request whose identity is absent while its repository is named. *)
Definition anonPR : searchNode :=
  mkSearchNode
    zeroIssue
    (mkPullRequestNode IDNil 7 "no id" 1700000200 "NONE" "carol" "infra-core").

Definition otherIssue : searchNode :=
  mkSearchNode
    (mkIssueNode (IDString "I_3") 3 "elsewhere" 1700000300 "NONE" "dave"
                 "other-repo")
    zeroPR.

Definition issuePage : searchQuery := mkSearchQuery 1 false "c1" [aliceIssue].
Definition prPage : searchQuery := mkSearchQuery 1 false "c1" [bobPR].

Definition client : GraphQLClient unit :=
  λ n done query pageSize cursor,
    if done then (n, inl "context canceled")
    else if bool_decide (query = "org:acme is:open is:issue")
    then (n, inr issuePage)
    else (n, inr prPage).

Definition brokenClient : GraphQLClient unit :=
  λ n done query pageSize cursor,
    if bool_decide (query = "org:acme is:open is:issue")
    then (n, inl "boom")
    else (n, inr prPage).

Definition config (skip : list string) (aud : Audience) : Config :=
  mkConfig "acme" "infra-" skip true true aud.

Definition scanner (skip : list string) (aud : Audience) (g : GraphQLClient unit)
  : Scanner unit :=
  mkScanner (config skip aud) g (buildSkipMap (H := ascii_strings) skip).

(** Both searches complete, the issue one first, then the loop drains. *)
Definition calm : list actor :=
  [ARun false; ARun false; ARun true; ARun true; ACloser; AMain; AMain; AMain].

(** The issue search fails and its segment is received while the
    pull-request segment is still to be sent. *)
Definition hasty : list actor :=
  [ARun true; ARun false; ARun false; ARun false; AMain; ARun true; ACloser;
   AMain].

End Demo.

(** ** Further vocabulary of the scanner *)

Section ScannerVocabulary.
Context `{!GoStrings} {T : Type}.

(** Whether the category [pr] is requested in the configuration of [s]. *)
Definition enabled (s : Scanner T) (pr : bool) : bool :=
  if pr then IncludePRs (cfg s) else IncludeIssues (cfg s).

(** The two lists of the category [pr] in a Result. *)
Definition externalOf (pr : bool) (res : Result) : list Item :=
  if pr then ExternalPRs res else ExternalIssues res.

Definition internalOf (pr : bool) (res : Result) : list Item :=
  if pr then InternalPRs res else InternalIssues res.

Definition allItems (res : Result) : list Item :=
  ExternalIssues res ++ InternalIssues res ++ ExternalPRs res
  ++ InternalPRs res.

(** The Result carries the include flags and the audience of the scanner. *)
Definition echoes (s : Scanner T) (res : Result) : Prop :=
  ResIncludeIssues res = IncludeIssues (cfg s)
  ∧ ResIncludePRs res = IncludePRs (cfg s)
  ∧ ResAudience res = CfgAudience (cfg s).

(** The items the extractor yields for the nodes of a page, in page order. *)
Definition extractedItem (params : searchParams) (node : searchNode)
  : option Item :=
  let '(item, _, _, _, ok) := extractItem node (isPR params) in
  if ok then Some item else None.

Definition extracted (params : searchParams) (nodes : list searchNode)
  : list Item :=
  omap (extractedItem params) nodes.

(** A property [Q] of the buffers of a run holds of what a goroutine holds or
    has sent; a segment that carries an error carries no buffers. *)
Definition bufOK (Q : buffers → Prop) (w : worker) : Prop :=
  match w with
  | WFetch _ external internal repos => Q (external, internal, repos)
  | WSend seg | WDone seg =>
      match seg_err seg with
      | Some _ => True
      | None => ∃ repos, seg_repos seg = Some repos
                         ∧ Q (seg_external seg, seg_internal seg, repos)
      end
  | WOff | WFailed _ => True
  end.

(** The goroutine of a category as [Scan] starts it. *)
Definition firstWorker (s : Scanner T) (pr : bool) : worker :=
  if enabled s pr then WFetch None [] [] ∅ else WOff.

(** What the flags of the configuration mean for the machine: a category
    has no goroutine exactly when it is not enabled; the Result in the hands
    of the loop echoes the configuration and has nothing in the lists of a
    category that is not enabled; its [TotalRepos] is set only by the return
    without error. *)
Definition flagsOK (s : Scanner T) (st : state T) : Prop :=
  (∀ pr, workerOf pr st = WOff ↔ enabled s pr = false)
  ∧ match main st with
    | MLoop res _ | MReturned res (Some _) =>
        echoes s res ∧ TotalRepos res = 0
        ∧ ∀ pr, enabled s pr = false →
                externalOf pr res = [] ∧ internalOf pr res = []
    | MReturned res None =>
        echoes s res
        ∧ ∀ pr, enabled s pr = false →
                externalOf pr res = [] ∧ internalOf pr res = []
    end.

(** Whether a goroutine holds, or has sent, a segment with an error: its
    [search] has failed and it has called [cancel]. *)
Definition hasCancelled (w : worker) : bool :=
  match w with
  | WSend seg | WDone seg => bool_decide (is_Some (seg_err seg))
  | _ => false
  end.

Definition hasReturned (m : orchestrator) : bool :=
  match m with
  | MReturned _ _ => true
  | MLoop _ _ => false
  end.

(** Every enabled run has sent its segment, and none carries an error. *)
Definition settled (st : state T) : Prop :=
  ∀ pr, match workerOf pr st with
        | WOff => True
        | WDone seg => seg_err seg = None
        | _ => False
        end.

(** Turns still needed before [Scan] returns without error once the runs
    are settled: the close of the channel, then one receive per segment in
    the channel and the one that finds it closed and empty. *)
Definition toReturn (st : state T) : nat :=
  match main st with
  | MReturned _ _ => 0
  | MLoop _ _ => if closed st then S (length (resultCh st)) else 4
  end.

Definition planReturn (k : nat) : list actor :=
  match k with
  | 0%nat => []
  | 1%nat => [AMain]
  | 2%nat => [AMain; AMain]
  | 3%nat => [AMain; AMain; AMain]
  | _ => [ACloser; AMain; AMain; AMain]
  end.

(** A client whose answer to a page request depends on the query and the
    cursor only. *)
Definition pureClient (s : Scanner T)
    (f : string → option string → error + searchQuery) : Prop :=
  ∀ n done query pageSize cursor,
    (graph s n done query pageSize cursor).2 = f query cursor.

(** The move of the goroutine of category [pr], seen from the goroutine,
    when the client answers as [f]. *)
Definition nextWorker (s : Scanner T)
    (f : string → option string → error + searchQuery) (pr : bool)
    (w : worker) : worker :=
  match w with
  | WFetch cursor external internal repos =>
      match f (queryString s (paramsOf pr)) cursor with
      | inl e => WFailed e
      | inr q =>
          let '(external, internal, repos) :=
            searchNodes s (paramsOf pr) (external, internal, repos) (Nodes q) in
          if HasNextPage q then
            WFetch (Some (EndCursor q)) external internal repos
          else WSend (mkSegment external internal (Some repos) pr None)
      end
  | WFailed e => WSend (mkSegment [] [] None pr (Some e))
  | WSend seg => WDone seg
  | WOff | WDone _ => w
  end.

End ScannerVocabulary.

(** ** The report package (internal/report/report.go): counting *)

Definition uniqueRepoCount (items : list Item) : Z :=
  Z.of_nat (size (fold_left (λ (set : gset string) itm, {[Repo itm]} ∪ set)
                            items ∅)).

(** ** The command (cmd/root.go) *)

(** [strings.Split(s, ",")]: the pieces of [s] between commas; one piece
    when there is no comma. *)
Fixpoint splitComma (s : string) : list string :=
  match s with
  | EmptyString => [EmptyString]
  | String c r =>
      if Ascii.eqb c "," then EmptyString :: splitComma r
      else match splitComma r with
           | p :: ps => String c p :: ps
           | [] => [String c EmptyString]
           end
  end.

Record rootOptions := mkRootOptions {
  opt_org : string;
  opt_prefix : string;
  opt_debug : bool;
  opt_skip : string;
  opt_issues : bool;
  opt_prs : bool;
  opt_aud : string
}.

Section Command.
Context `{!GoStrings} {T : Type}.

Definition parseSkipPart (part : string) : option string :=
  let part := TrimSpace (ToLower part) in
  if bool_decide (part = "") then None else Some part.

Definition parseSkipList (csv : string) : list string :=
  let csv := TrimSpace csv in
  if bool_decide (csv = "") then []
  else omap parseSkipPart (splitComma csv).

Definition parseAudience (raw : string) : error + Audience :=
  let v := ToLower (TrimSpace raw) in
  if bool_decide (v = AudienceAll) || bool_decide (v = "") then
    inr AudienceAll
  else if bool_decide (v = AudienceInternal) then inr AudienceInternal
  else if bool_decide (v = AudienceExternal) then inr AudienceExternal
  else inl ("invalid --audience value " ++ Quote raw
            ++ " (use all|internal|external)")%string.

(** [run] up to its call of [Scan]: the scanner it scans with, or the error
    it returns before.  [token] is the value of [GITHUB_TOKEN] in the
    environment, [buildGitHubClient] the client built from the trimmed token
    (never nil, never an error). *)
Definition runSetup (token : string)
    (buildGitHubClient : string → GraphQLClient T) (opts : rootOptions)
  : error + Scanner T :=
  let token := TrimSpace token in
  if bool_decide (token = "") then
    inl "GITHUB_TOKEN environment variable is required"
  else if negb (opt_issues opts) && negb (opt_prs opts) then
    inl "at least one of --issues or --prs must be enabled"
  else
    let graphClient := buildGitHubClient token in
    match parseAudience (opt_aud opts) with
    | inl e => inl e
    | inr audience =>
        New (mkConfig (opt_org opts) (opt_prefix opts)
                      (parseSkipList (opt_skip opts))
                      (opt_issues opts) (opt_prs opts) audience)
            (Some graphClient)
    end.

End Command.

(** ** The report (internal/report/report.go) *)

(** Library functions the report uses on text: the runes of a string as
    [range] yields them, [unicode.IsLetter], [unicode.IsSpace],
    [strings.Fields], and [strings.Map] with [None] for a negative result of
    the mapping.  The clock is [daysSince created], the value of
    [int(time.Since(created).Hours() / 24)]. *)
Class GoUnicode := {
  Runes : string → list N;
  IsLetter : N → bool;
  IsSpace : N → bool;
  Fields : string → list string;
  MapRunes : (N → option N) → string → string
}.

Class Clock := {
  daysSince : DateTime → Z
}.

Module Ascii7Text.

Definition runes (s : string) : list N :=
  N_of_ascii <$> list_ascii_of_string s.

Definition is_letter (r : N) : bool :=
  ((65 <=? r) && (r <=? 90) || (97 <=? r) && (r <=? 122))%N.

Definition is_space (r : N) : bool :=
  ((r =? 32) || (9 <=? r) && (r <=? 13))%N.

(** The words of [s]; [cur] is the word being read, if any. *)
Fixpoint fields_from (cur : option string) (s : string) : list string :=
  match s with
  | EmptyString =>
      match cur with
      | Some w => [w]
      | None => []
      end
  | String c r =>
      if Ascii7.is_space c then
        match cur with
        | Some w => w :: fields_from None r
        | None => fields_from None r
        end
      else
        fields_from (Some (match cur with
                           | Some w => w ++ String c EmptyString
                           | None => String c EmptyString
                           end)%string) r
  end.

Definition fields (s : string) : list string := fields_from None s.

Fixpoint map_runes (f : N → option N) (s : string) : string :=
  match s with
  | EmptyString => EmptyString
  | String c r =>
      match f (N_of_ascii c) with
      | Some x => String (ascii_of_N x) (map_runes f r)
      | None => map_runes f r
      end
  end.

End Ascii7Text.

Definition ascii_unicode : GoUnicode :=
  {| Runes := Ascii7Text.runes;
     IsLetter := Ascii7Text.is_letter;
     IsSpace := Ascii7Text.is_space;
     Fields := Ascii7Text.fields;
     MapRunes := Ascii7Text.map_runes |}.

Definition tab : string := String (ascii_of_nat 9) EmptyString.
Definition newline : string := String (ascii_of_nat 10) EmptyString.

(** [strings.IndexAny(s, chars)] for [chars] made of ASCII characters: the
    index of the first byte of [s] that is one of them, or [-1]. *)
Fixpoint containsByte (chars : string) (c : ascii) : bool :=
  match chars with
  | EmptyString => false
  | String d r => Ascii.eqb c d || containsByte r c
  end.

Fixpoint indexAny (s chars : string) : option nat :=
  match s with
  | EmptyString => None
  | String c r =>
      if containsByte chars c then Some 0%nat else S <$> indexAny r chars
  end.

Definition IndexAny (s chars : string) : Z :=
  match indexAny s chars with
  | Some i => Z.of_nat i
  | None => -1
  end.

(** [sort.Strings]: in increasing order of the strings compared byte by
    byte, which is [String.le].  The sorted arrangement of a list is unique,
    so that any sorting function stands for it. *)
Definition sortStrings (l : list string) : list string :=
  merge_sort String.le l.

Section Report.
Context `{!GoStrings} `{!GoUnicode} `{!Clock}.

Definition removeBracketed (title : string) : string :=
  MapRunes (λ r, if ((r =? 91) || (r =? 93))%N then None else Some r) title.

Definition stripDescriptor (title : string) : string :=
  let idx := IndexAny title ":-" in
  if idx <=? 0 then title
  else
    let prefix := TrimSpace (substring 0 (Z.to_nat idx) title) in
    if bool_decide (prefix = "") then title
    else if negb (forallb (λ r, IsLetter r || IsSpace r) (Runes prefix))
    then title
    else
      let rest :=
        TrimSpace (substring (Z.to_nat (idx + 1))
                             (String.length title - Z.to_nat (idx + 1)) title) in
      if bool_decide (rest = "") then title else rest.

Definition normalizeTitle (raw : string) : string :=
  let title := ToLower (TrimSpace raw) in
  let title := removeBracketed title in
  let title := stripDescriptor title in
  match Fields title with
  | [] => ""
  | f0 :: rest => fold_left (λ sb f, (sb ++ " " ++ f)%string) rest f0
  end.

(** [None] is the panic of a slice with a negative bound. *)
Definition truncateTitle (title : string) (limit : Z) : option string :=
  if Z.of_nat (String.length title) <=? limit then Some title
  else if limit <=? 3 then
    if limit <? 0 then None
    else Some (substring 0 (Z.to_nat limit) title)
  else
    Some (TrimSpace (substring 0 (Z.to_nat (limit - 3)) title) ++ "...")%string.

Definition formatAge (created : DateTime) : string :=
  let days := daysSince created in
  if days =? 0 then "today"
  else if days =? 1 then "1 day"
  else if days <? 7 then (pretty days ++ " days")%string
  else if days <? 30 then
    let weeks := Z.quot days 7 in
    if weeks =? 1 then "1 week" else (pretty weeks ++ " weeks")%string
  else if days <? 365 then
    let months := Z.quot days 30 in
    if months =? 1 then "1 month" else (pretty months ++ " months")%string
  else
    let years := Z.quot days 365 in
    if years =? 1 then "1 year" else (pretty years ++ " years")%string.

(** The first loop of [printGrouped]: the items of each repository in the
    order met, and the repositories in the order first met. *)
Definition groupStep (acc : gmap string (list Item) * list string)
    (itm : Item) : gmap string (list Item) * list string :=
  let '(byRepo, repos) := acc in
  let repos := match byRepo !! Repo itm with
               | None => repos ++ [Repo itm]
               | Some _ => repos
               end in
  (<[Repo itm := default [] (byRepo !! Repo itm) ++ [itm]]> byRepo, repos).

(** The rows of one repository: its name in the first one only. *)
Definition repoRows (repo : string) (items : list Item)
  : list (string * Item) :=
  match items with
  | [] => []
  | itm :: rest => (repo, itm) :: ((λ i, ("", i)) <$> rest)
  end.

(** The cells of the first column and the items of the rows, in the order
    [printGrouped] writes them. *)
Definition printOrder (items : list Item) : list (string * Item) :=
  let '(byRepo, repos) := fold_left groupStep items (∅, []) in
  flat_map (λ repo, repoRows repo (default [] (byRepo !! repo)))
           (sortStrings repos).

Definition printRow (titleWidth : Z) (row : string * Item) : option string :=
  let '(repoCell, itm) := row in
  let title := normalizeTitle (Title itm) in
  match truncateTitle title titleWidth with
  | None => None
  | Some titleCell =>
      let ageCell := formatAge (CreatedAt itm) in
      Some (repoCell ++ tab ++ "#" ++ pretty (Number itm) ++ tab ++ titleCell
            ++ tab ++ ageCell ++ tab ++ ToLower (Author itm) ++ newline)%string
  end.

(** What [printGrouped] writes, one string per call of [Fprintf]; [None] when
    it panics. *)
Definition printGrouped (items : list Item) (titleWidth : Z)
  : option (list string) :=
  match items with
  | [] => Some [("(none)" ++ tab ++ tab ++ tab ++ newline)%string]
  | _ => mapM (printRow titleWidth) (printOrder items)
  end.

End Report.

Module Demo2.

(** A client that answers as the one of [Demo] but whatever the context. *)
Definition answers (query : string) (cursor : option string)
  : error + searchQuery :=
  if bool_decide (query = "org:acme is:open is:issue")
  then inr Demo.issuePage
  else inr Demo.prPage.

Definition steadyClient : GraphQLClient unit :=
  λ n done query pageSize cursor, (n, answers query cursor).

(** The pull-request run first. *)
Definition prsFirst : list actor :=
  [ARun true; ARun true; ARun false; ARun false; ACloser; AMain; AMain; AMain].

Definition clock : Clock := {| daysSince := λ created, 1700864000 - created |}.

Definition items : list Item :=
  [mkItem "infra-net" 4 "Feat: add [WIP] peering" "Dave" 1700863990;
   mkItem "infra-core" 1 "disk full" "alice" 1700864000;
   mkItem "infra-net" 9 "fix typo" "bob" 1700863000;
   mkItem "infra-core" 2 "docs - readme" "Carol" 1700863999].

Definition options : rootOptions :=
  mkRootOptions "acme" "infra-" false "Bob, ,dependabot[bot]" true false
                " External ".

End Demo2.

(** ** What the printer writes (Print, printSection) *)

(** The output of the printer: the text of a call of [Fprintf] or
    [Fprintln] on the writer, or the rows written to a [tabwriter] between
    its creation and its [Flush], which lays them out in columns on the
    writer. *)
Inductive chunk :=
| Text (text : string)
| Table (rows : list string).

Definition esc : string := String (ascii_of_nat 27) EmptyString.

Definition bold (text : string) : string :=
  (esc ++ "[1m" ++ text ++ esc ++ "[0m")%string.

Definition sectionLabels : list string :=
  ["external issues"; "internal issues"; "external prs"; "internal prs"].

Definition tables (out : list chunk) : list (list string) :=
  omap (λ c, match c with Table rows => Some rows | Text _ => None end) out.

Definition noneRow : string := ("(none)" ++ tab ++ tab ++ tab ++ newline)%string.

Section Printer.
Context `{!GoStrings} `{!GoUnicode} `{!Clock}.

(** [None] is a panic: of [strings.Fields(label)[0]] for a label without a
    field, or of [printGrouped]. *)
Definition printSection (label : string) (items : list Item)
    (audience : Audience) : option (list chunk) :=
  match items with
  | [] => Some []
  | _ :: _ =>
      match Fields label with
      | [] => None
      | _ :: _ =>
          match printGrouped items 70 with
          | None => None
          | Some rows =>
              Some [Text (newline
                          ++ bold (label ++ " ("
                                   ++ pretty (Z.of_nat (length items)) ++ ")")
                          ++ newline)%string;
                    Text (bold ("audience (" ++ audience ++ ")")
                          ++ newline)%string;
                    Text (bold ("repos (" ++ pretty (uniqueRepoCount items)
                                ++ ")")
                          ++ newline ++ newline)%string;
                    Table rows;
                    Text newline]
          end
      end
  end.

Definition summary (res : Result) : list chunk :=
  [Text (newline ++ bold "summary" ++ newline)%string;
   Text (bold ("repositories scanned (" ++ pretty (TotalRepos res) ++ ")")
         ++ newline)%string]
  ++ (if ResIncludeIssues res then
        [Text (bold ("issues ("
                     ++ pretty (Z.of_nat (length (ExternalIssues res)))
                     ++ " external, "
                     ++ pretty (Z.of_nat (length (InternalIssues res)))
                     ++ " internal)")
               ++ newline)%string]
      else [])
  ++ (if ResIncludePRs res then
        [Text (bold ("prs ("
                     ++ pretty (Z.of_nat (length (ExternalPRs res)))
                     ++ " external, "
                     ++ pretty (Z.of_nat (length (InternalPRs res)))
                     ++ " internal)")
               ++ newline)%string]
      else []).

Definition Print (res : Result) : option (list chunk) :=
  match (if ResIncludeIssues res then
           match printSection "external issues" (ExternalIssues res)
                              (ResAudience res) with
           | None => None
           | Some ext =>
               match printSection "internal issues" (InternalIssues res)
                                  (ResAudience res) with
               | None => None
               | Some int => Some (ext ++ int)
               end
           end
         else Some []) with
  | None => None
  | Some issues =>
      match (if ResIncludePRs res then
               match printSection "external prs" (ExternalPRs res)
                                  (ResAudience res) with
               | None => None
               | Some ext =>
                   match printSection "internal prs" (InternalPRs res)
                                      (ResAudience res) with
                   | None => None
                   | Some int => Some (ext ++ int)
                   end
               end
             else Some []) with
      | None => None
      | Some prs => Some (issues ++ prs ++ summary res)
      end
  end.

(** The rows of a table of [items] for the title width of [printSection]:
    those of [printOrder], each as [printRow] writes it. *)
Definition rowsOf (items : list Item) (rows : list string) : Prop :=
  Forall2 (λ row text, printRow 70 row = Some text) (printOrder items) rows.

(** The lists of the categories the Result includes, in the order of
    [Print]. *)
Definition shown (res : Result) : list (list Item) :=
  (if ResIncludeIssues res then [ExternalIssues res; InternalIssues res]
   else [])
  ++ (if ResIncludePRs res then [ExternalPRs res; InternalPRs res] else []).

End Printer.

(** * Properties *)

(** ** Association classifier *)

(** C5: the classifier answers true exactly on Owner, Member and Collaborator,
    and false on every other value; the empty value and [NONE] are among
    those. *)
Theorem isInternalAssociation_spec (assoc : CommentAuthorAssociation) :
  (isInternalAssociation assoc = true ↔
     assoc = CommentAuthorAssociationOwner
     ∨ assoc = CommentAuthorAssociationMember
     ∨ assoc = CommentAuthorAssociationCollaborator)
  ∧ (isInternalAssociation assoc = false ↔
       assoc ≠ CommentAuthorAssociationOwner
       ∧ assoc ≠ CommentAuthorAssociationMember
       ∧ assoc ≠ CommentAuthorAssociationCollaborator)
  ∧ isInternalAssociation "" = false
  ∧ isInternalAssociation "NONE" = false.
Proof.
  split_and!; [| | reflexivity | reflexivity];
    unfold isInternalAssociation; repeat case_bool_decide;
    split; intros; try discriminate; try reflexivity; naive_solver.
Qed.

(** ** Item extractor *)

Lemma extractItem_pr_rejects (node : searchNode) :
  PR_ID (PullRequest node) = IDString "" ∨ PR_Repository_Name (PullRequest node) = "" →
  extractItem node true = (zeroItem, "", "", false, false).
Proof.
  unfold extractItem. intros [-> | ->]; simpl.
  - reflexivity.
  - by rewrite orb_true_r.
Qed.

Lemma extractItem_issue_rejects (node : searchNode) :
  Issue_ID (Issue node) = IDString "" ∨ Issue_Repository_Name (Issue node) = "" →
  extractItem node false = (zeroItem, "", "", false, false).
Proof.
  unfold extractItem. intros [-> | ->]; simpl.
  - reflexivity.
  - by rewrite orb_true_r.
Qed.

(** C6: a pull-request node whose identity is absent (a nil [ID]) but whose
    repository is named is extracted with success, and yields an Item: the
    comparison of the [ID] with the empty string does not catch nil. *)
Theorem extractItem_absent_ID_accepted :
  PR_ID (PullRequest Demo.anonPR) = IDNil
  ∧ extractItem Demo.anonPR true
    = (mkItem "infra-core" 7 "no id" "carol" 1700000200,
       "infra-core", "carol", false, true).
Proof. split; reflexivity. Qed.

Section Properties.
Context `{!GoStrings} {T : Type}.
Implicit Types (s : Scanner T) (g : GraphQLClient T) (st : state T).
Implicit Types (params : searchParams) (node : searchNode) (acc : buffers).

(** ** Construction *)

Lemma validAudience_spec (a : Audience) :
  validAudience a = true ↔
    a = AudienceAll ∨ a = AudienceInternal ∨ a = AudienceExternal.
Proof.
  unfold validAudience. rewrite !orb_true_iff, !bool_decide_eq_true. tauto.
Qed.

(** C8, as the code has it: [New] fails exactly when no client is supplied,
    the organization or the prefix is blank, or the audience is neither
    empty nor one of all, internal, external; an empty audience is read as
    all; and with neither category requested and the rest valid, [New]
    succeeds with both categories enabled. *)
Theorem New_fails_iff (c : Config) (og : option (GraphQLClient T)) :
  ((∃ e, New c og = inl e) ↔
     og = None ∨ blank (Organization c) ∨ blank (RepoPrefix c)
     ∨ (CfgAudience c ≠ "" ∧ validAudience (CfgAudience c) = false))
  ∧ (∀ s, New c og = inr s →
       (CfgAudience c = "" → CfgAudience (cfg s) = AudienceAll)
       ∧ (CfgAudience c ≠ "" → CfgAudience (cfg s) = CfgAudience c)
       ∧ (IncludeIssues c = false → IncludePRs c = false →
          IncludeIssues (cfg s) = true ∧ IncludePRs (cfg s) = true)
       ∧ (IncludeIssues c = true ∨ IncludePRs c = true →
          IncludeIssues (cfg s) = IncludeIssues c
          ∧ IncludePRs (cfg s) = IncludePRs c))
  ∧ (IncludeIssues c = false → IncludePRs c = false →
     og ≠ None → ¬ blank (Organization c) → ¬ blank (RepoPrefix c) →
     CfgAudience c = "" ∨ validAudience (CfgAudience c) = true →
     ∃ s, New c og = inr s
          ∧ IncludeIssues (cfg s) = true ∧ IncludePRs (cfg s) = true).
Proof.
  unfold New, blank.
  destruct og as [g|]; [|split_and!; [naive_solver | done | done]].
  destruct c as [org prefix skip ii ip aud]; simpl.
  repeat case_bool_decide; subst; simpl;
    try (split_and!; [naive_solver | done | naive_solver]).
  - split_and!.
    + split; [intros [? [=]] | intros [|[|[|[]]]]; done].
    + intros s [= <-]; simpl.
      split_and!; [done | done | by intros -> -> |].
      destruct ii, ip; naive_solver.
    + intros -> -> _ _ _ _. eexists; split; [reflexivity | done].
  - destruct (validAudience aud) eqn:Hv; simpl.
    + split_and!.
      * split; [intros [? [=]] | intros [|[|[|[]]]]; done].
      * intros s [= <-]; simpl.
        split_and!; [done | done | by intros -> -> |].
        destruct ii, ip; naive_solver.
      * intros -> -> _ _ _ _. eexists; split; [reflexivity | done].
    + split_and!; [naive_solver | done | naive_solver].
Qed.

(** ** The filter pipeline of [search] *)

Lemma searchOne_rejected s params acc node :
  (extractItem node (isPR params)).2 = false →
  searchOne s params acc node = acc.
Proof.
  unfold searchOne. destruct acc as [[ext int] repos].
  destruct (extractItem _ _) as [[[[item repoName] author] ia] ok]; simpl.
  by intros ->.
Qed.

Lemma searchOne_off_prefix s params acc node item repoName author ia ok :
  extractItem node (isPR params) = (item, repoName, author, ia, ok) →
  HasPrefix repoName (RepoPrefix (cfg s)) = false →
  searchOne s params acc node = acc.
Proof.
  unfold searchOne. destruct acc as [[ext int] repos].
  intros -> ->. by destruct ok.
Qed.

Lemma searchOne_accepted s params ext int repos node item repoName author ia :
  extractItem node (isPR params) = (item, repoName, author, ia, true) →
  HasPrefix repoName (RepoPrefix (cfg s)) = true →
  searchOne s params (ext, int, repos) node =
    if skipped s author then (ext, int, {[repoName]} ∪ repos)
    else if bool_decide (CfgAudience (cfg s) = AudienceInternal) && negb ia
    then (ext, int, {[repoName]} ∪ repos)
    else if bool_decide (CfgAudience (cfg s) = AudienceExternal) && ia
    then (ext, int, {[repoName]} ∪ repos)
    else if ia then (ext, int ++ [item], {[repoName]} ∪ repos)
    else (ext ++ [item], int, {[repoName]} ∪ repos).
Proof. unfold searchOne. by intros -> ->. Qed.

Lemma searchOne_repos s params acc node :
  (searchOne s params acc node).2 =
    match passesPrefix s params node with
    | Some repoName => {[repoName]} ∪ acc.2
    | None => acc.2
    end.
Proof.
  unfold searchOne, passesPrefix. destruct acc as [[ext int] repos].
  destruct (extractItem _ _) as [[[[item repoName] author] ia] ok]; simpl.
  destruct ok; simpl; [|done].
  destruct (HasPrefix _ _); simpl; [|done].
  by repeat (match goal with |- context [if ?b then _ else _] => destruct b end;
             simpl).
Qed.

Lemma searchNodes_repos s params acc nodes :
  (searchNodes s params acc nodes).2
  = list_to_set (tracked s params nodes) ∪ acc.2.
Proof.
  unfold searchNodes, tracked. revert acc.
  induction nodes as [|node nodes IH]; intros acc; simpl.
  - set_solver.
  - rewrite IH, searchOne_repos.
    destruct (passesPrefix s params node); simpl; set_solver.
Qed.

Lemma passesPrefix_same_prefix s s' params node :
  RepoPrefix (cfg s') = RepoPrefix (cfg s) →
  passesPrefix s' params node = passesPrefix s params node.
Proof. unfold passesPrefix. by intros ->. Qed.

Lemma count_occ_elements (X : gset string) (x : string) :
  x ∈ X → count_occ string_dec (elements X) x = 1%nat.
Proof.
  intros Hx. apply NoDup_count_occ'.
  - apply NoDup_ListNoDup, NoDup_elements.
  - apply list_elem_of_In, elem_of_elements, Hx.
Qed.

Lemma tracked_same_prefix s s' params nodes :
  RepoPrefix (cfg s') = RepoPrefix (cfg s) →
  tracked s' params nodes = tracked s params nodes.
Proof.
  intros Hp. unfold tracked.
  induction nodes as [|node nodes IH]; [done|].
  change (match passesPrefix s' params node with
          | Some y => y :: omap (passesPrefix s' params) nodes
          | None => omap (passesPrefix s' params) nodes
          end
          = match passesPrefix s params node with
            | Some y => y :: omap (passesPrefix s params) nodes
            | None => omap (passesPrefix s params) nodes
            end).
  by rewrite IH, (passesPrefix_same_prefix s s').
Qed.

Lemma tracked_elem s params nodes node item repoName author ia :
  node ∈ nodes →
  extractItem node (isPR params) = (item, repoName, author, ia, true) →
  HasPrefix repoName (RepoPrefix (cfg s)) = true →
  repoName ∈ tracked s params nodes.
Proof.
  intros Hin Hex Hp. unfold tracked. apply list_elem_of_omap.
  exists node. split; [done|].
  unfold passesPrefix. by rewrite Hex, Hp.
Qed.

(** C1: after the loop over a page, the run's repo set is the one before
    it extended by the repository of every node that passed extraction and
    the prefix filter.  It is the same whatever the skip-set and the
    audience are; each such repository is in it, once, also when no item of
    the page reached a buffer. *)
Theorem search_tracks_repos s params acc nodes :
  (searchNodes s params acc nodes).2
    = list_to_set (tracked s params nodes) ∪ acc.2
  ∧ (∀ s', RepoPrefix (cfg s') = RepoPrefix (cfg s) →
       (searchNodes s' params acc nodes).2
       = (searchNodes s params acc nodes).2)
  ∧ (∀ node item repoName author ia,
       node ∈ nodes →
       extractItem node (isPR params) = (item, repoName, author, ia, true) →
       HasPrefix repoName (RepoPrefix (cfg s)) = true →
       repoName ∈ (searchNodes s params acc nodes).2
       ∧ count_occ string_dec
           (elements (searchNodes s params acc nodes).2) repoName = 1%nat
       ∧ ((searchNodes s params acc nodes).1 = acc.1 →
          repoName ∈ (searchNodes s params acc nodes).2)).
Proof.
  split_and!.
  - apply searchNodes_repos.
  - intros s' Hp. by rewrite !searchNodes_repos, (tracked_same_prefix s s').
  - intros node item repoName author ia Hin Hex Hp.
    assert (repoName ∈ (searchNodes s params acc nodes).2) as Hmem.
    { rewrite searchNodes_repos. apply elem_of_union_l, elem_of_list_to_set.
      by eapply tracked_elem. }
    split_and!; [done | by apply count_occ_elements | done].
Qed.

(** C3: an item that passed the prefix and skip filters is kept, under
    audience internal, exactly when its author is internal; under audience
    external, exactly when the author is not; under audience all, always;
    a kept item is appended to the internal buffer when its author is
    internal and to the external buffer otherwise, and to that one only. *)
Theorem audience_filter s params ext int repos node item repoName author ia :
  extractItem node (isPR params) = (item, repoName, author, ia, true) →
  HasPrefix repoName (RepoPrefix (cfg s)) = true →
  skipped s author = false →
  (CfgAudience (cfg s) = AudienceInternal →
     searchOne s params (ext, int, repos) node
     = if ia then (ext, int ++ [item], {[repoName]} ∪ repos)
       else (ext, int, {[repoName]} ∪ repos))
  ∧ (CfgAudience (cfg s) = AudienceExternal →
     searchOne s params (ext, int, repos) node
     = if ia then (ext, int, {[repoName]} ∪ repos)
       else (ext ++ [item], int, {[repoName]} ∪ repos))
  ∧ (CfgAudience (cfg s) = AudienceAll →
     searchOne s params (ext, int, repos) node
     = if ia then (ext, int ++ [item], {[repoName]} ∪ repos)
       else (ext ++ [item], int, {[repoName]} ∪ repos)).
Proof.
  intros Hex Hp Hs.
  rewrite (searchOne_accepted _ _ _ _ _ _ _ _ _ _ Hex Hp), Hs.
  split_and!; intros ->; destruct ia; reflexivity.
Qed.

Lemma skipped_empty_login s : skipped s "" = false.
Proof.
  unfold skipped. rewrite bool_decide_eq_true_2 by done.
  by rewrite andb_false_r.
Qed.

(** C4: an item with a non-empty login whose lower-cased form is in a
    non-empty skip-set reaches neither buffer (its repository is tracked
    all the same when it passed the prefix filter); an item with an empty
    login is never rejected by the skip filter, whatever the skip-set: the
    loop treats it as it would with no skip-set at all. *)
Theorem skip_filter s params ext int repos node item repoName author ia ok :
  extractItem node (isPR params) = (item, repoName, author, ia, ok) →
  (author ≠ "" → 0 < setLen (skipUsers s) →
   setHas (skipUsers s) (ToLower author) = true →
     (searchOne s params (ext, int, repos) node).1 = (ext, int)
     ∧ (ok = true → HasPrefix repoName (RepoPrefix (cfg s)) = true →
        repoName ∈ (searchOne s params (ext, int, repos) node).2))
  ∧ (author = "" →
     skipped s author = false
     ∧ ∀ skip, searchOne (mkScanner (cfg s) (graph s) skip) params
                 (ext, int, repos) node
               = searchOne s params (ext, int, repos) node).
Proof.
  intros Hex. split.
  - intros Hne Hlen Hhas.
    assert (skipped s author = true) as Hs.
    { unfold skipped. rewrite Hhas, andb_true_r.
      rewrite bool_decide_eq_false_2 by done.
      rewrite andb_true_r. by apply Z.ltb_lt. }
    destruct ok; [destruct (HasPrefix repoName (RepoPrefix (cfg s))) eqn:Hp|].
    + rewrite (searchOne_accepted _ _ _ _ _ _ _ _ _ _ Hex Hp), Hs.
      split; [done|]. intros _ _. simpl. set_solver.
    + rewrite (searchOne_off_prefix _ _ _ _ _ _ _ _ _ Hex Hp).
      split; [done | by intros _ [=]].
    + rewrite searchOne_rejected by (by rewrite Hex).
      split; [done | by intros [=]].
  - intros ->. split; [apply skipped_empty_login|].
    intros skip. unfold searchOne. rewrite Hex. simpl.
    by rewrite !skipped_empty_login.
Qed.

End Properties.

(** ** The machine of [Scan] *)

Section Machine.
Context `{!GoStrings} {T : Type}.
Implicit Types (s : Scanner T) (st : state T) (pr : bool) (seg : segment).
Implicit Types (w : worker) (ch : list segment).

Lemma existsb_tag_false ch pr :
  existsb (λ seg, Bool.eqb (seg_isPR seg) pr) ch = false ↔
  ∀ seg, seg ∈ ch → seg_isPR seg = negb pr.
Proof.
  induction ch as [|x ch IH]; simpl.
  - split; [|done]. intros _ x Hx. by apply elem_of_nil in Hx.
  - rewrite orb_false_iff, IH. split.
    + intros [Hx Hall] seg [->|Hin]%elem_of_cons; [|by apply Hall].
      destruct (seg_isPR x), pr; done.
    + intros Hall. split.
      * rewrite (Hall x) by left. by destruct pr.
      * intros seg Hin. apply Hall. by right.
Qed.

Lemma inCh_pending st pr :
  Inv st → pending (workerOf pr st) = true → inCh pr st = false.
Proof.
  intros HI Hp. apply existsb_tag_false. intros seg Hin.
  pose proof (inv_ch _ HI seg Hin) as Hw.
  destruct (seg_isPR seg), pr; try done; simpl in *; rewrite Hw in Hp; done.
Qed.

Lemma inCh_off st pr :
  Inv st → workerOf pr st = WOff → inCh pr st = false.
Proof.
  intros HI Hp. apply existsb_tag_false. intros seg Hin.
  pose proof (inv_ch _ HI seg Hin) as Hw.
  destruct (seg_isPR seg), pr; try done; simpl in *; congruence.
Qed.

(** Tags in the channel are distinct booleans: at most two segments. *)
Lemma NoDup_bool_length (l : list bool) : NoDup l → (length l ≤ 2)%nat.
Proof.
  intros Hnd. destruct l as [|a [|b [|c l]]]; simpl; try lia.
  exfalso. apply NoDup_cons in Hnd as [Ha Hnd].
  apply NoDup_cons in Hnd as [Hb Hnd]. apply NoDup_cons in Hnd as [Hc _].
  destruct a, b, c; set_solver.
Qed.

Lemma ch_length st : Inv st → (length (resultCh st) ≤ 2)%nat.
Proof.
  intros HI. rewrite <- (length_fmap seg_isPR).
  apply NoDup_bool_length, HI.
Qed.

Lemma ch_room st pr :
  Inv st → pending (workerOf pr st) = true →
  (length (resultCh st) < resultChCap)%nat.
Proof.
  intros HI Hp. pose proof (inCh_pending _ _ HI Hp) as Hno.
  unfold inCh in Hno.
  rewrite existsb_tag_false in Hno. pose proof (inv_nodup _ HI) as Hnd.
  unfold resultChCap.
  destruct (resultCh st) as [|a [|b l]]; simpl; try lia.
  exfalso. rewrite !fmap_cons in Hnd.
  rewrite (Hno a), (Hno b) in Hnd by set_solver.
  apply NoDup_cons in Hnd as [Ha _]. set_solver.
Qed.

Lemma Inv_setNet n st : Inv st → Inv (setNet n st).
Proof. destruct st. intros [? ? ? ? ?]. by constructor. Qed.

Lemma Inv_cancel st : Inv st → Inv (cancel st).
Proof. destruct st. intros [? ? ? ? ?]. by constructor. Qed.

Lemma Inv_parentCancel st : Inv st → Inv (parentCancel st).
Proof.
  unfold parentCancel. destruct st as [n [|d] c wi wp ch cl m]; simpl; [done|].
  intros [? ? ? ? ?]. by constructor.
Qed.

Lemma received_setWorker_pending pr pr' w st :
  Inv st → pending (workerOf pr st) = true → pending w = true →
  received pr' (setWorker pr w st) = received pr' st.
Proof.
  intros HI Hp Hw. unfold received.
  destruct st as [n p c wi wp ch cl m], pr, pr'; simpl in *; try done.
  - by destruct w, wp.
  - by destruct w, wi.
Qed.

(** Steps of a run that has not yet delivered leave what the loop has
    received as it is. *)
Lemma mainOK_frame pr st st' :
  pending (workerOf pr st) = true →
  main st' = main st →
  (∀ pr', received pr' st' = received pr' st) →
  mainOK st → mainOK st'.
Proof.
  intros Hp Hmain Hr. unfold mainOK, merged. rewrite Hmain.
  destruct (main st) as [res repoSet | res [e|]]; rewrite ?Hr.
  - intros ((? & ? & ? & ?) & ? & Hall). split_and!; try done.
    intros pr' seg. rewrite Hr. apply Hall.
  - intros (pr' & seg & ? & ? & Hall). exists pr', seg. by rewrite !Hr.
  - intros (_ & Hi & Hpr & _). exfalso.
    destruct pr; simpl in Hp; [by destruct (prsW st) | by destruct (issuesW st)].
Qed.

Lemma Inv_setWorker pr w st :
  Inv st → pending (workerOf pr st) = true → pending w = true →
  tagged pr w → Inv (setWorker pr w st).
Proof.
  intros HI Hp Hw Ht.
  pose proof (inCh_pending _ _ HI Hp) as Hno. unfold inCh in Hno.
  rewrite existsb_tag_false in Hno.
  assert (mainOK (setWorker pr w st)) as Hm'.
  { apply (mainOK_frame pr st); [done | by destruct st, pr | | apply HI].
    intros pr'. by apply received_setWorker_pending. }
  destruct HI as [Htag Hch Hnd Hcl Hm]. constructor; [| | | |done].
  - intros pr'. specialize (Htag pr').
    destruct st, pr, pr'; simpl in *; done.
  - intros seg Hin. assert (seg ∈ resultCh st) as Hin' by (by destruct st, pr).
    specialize (Hch seg Hin'). specialize (Hno seg Hin').
    destruct st, pr; simpl in *; by rewrite Hno in *.
  - by destruct st, pr.
  - intros Hc. assert (closed st = true) as Hc' by (by destruct st, pr).
    destruct (Hcl Hc') as [Hi Hpr].
    destruct st as [n0 p0 c0 wi wp ch cl m], pr; simpl in *; by destruct wi, wp.
Qed.

Lemma existsb_tag_app ch seg pr :
  seg_isPR seg = pr →
  existsb (λ x, Bool.eqb (seg_isPR x) pr) (ch ++ [seg]) = true
  ∧ existsb (λ x, Bool.eqb (seg_isPR x) (negb pr)) (ch ++ [seg])
    = existsb (λ x, Bool.eqb (seg_isPR x) (negb pr)) ch.
Proof.
  intros <-. rewrite !existsb_app. simpl. split.
  - rewrite orb_false_r, Bool.eqb_reflx. apply orb_true_r.
  - destruct (seg_isPR seg); simpl; by rewrite !orb_false_r.
Qed.

(** The send of a segment. *)
Lemma Inv_send pr seg st :
  Inv st → workerOf pr st = WSend seg →
  Inv (setWorker pr (WDone seg) (setResultCh (resultCh st ++ [seg]) st)).
Proof.
  intros HI Hw.
  assert (pending (workerOf pr st) = true) as Hp by (by rewrite Hw).
  pose proof (inCh_pending _ _ HI Hp) as Hno. unfold inCh in Hno.
  pose proof (inv_tag _ HI pr) as Htg. rewrite Hw in Htg. simpl in Htg.
  destruct (existsb_tag_app (resultCh st) seg pr Htg) as [Hin Hout].
  assert (mainOK (setWorker pr (WDone seg)
                    (setResultCh (resultCh st ++ [seg]) st))) as Hm'.
  { apply (mainOK_frame pr st); [done | by destruct st, pr | | apply HI].
    intros pr'. unfold received, inCh.
    destruct st as [n p c wi wp ch cl m], pr, pr'; simpl in *; subst;
      rewrite ?Hin, ?Hout; done. }
  rewrite existsb_tag_false in Hno.
  destruct HI as [Htag Hch Hnd Hcl Hm]. constructor; [| | | |done].
  - intros pr'. specialize (Htag pr').
    destruct st, pr, pr'; simpl in *; subst; done.
  - intros x Hx.
    assert (x ∈ resultCh st ++ [seg]) as Hx' by (by destruct st, pr).
    apply elem_of_app in Hx' as [Hx'|Hx'%list_elem_of_singleton].
    + specialize (Hch x Hx'). specialize (Hno x Hx').
      destruct st, pr; simpl in *; by rewrite Hno in *.
    + subst x. rewrite Htg. by destruct st, pr.
  - assert (resultCh (setWorker pr (WDone seg)
                        (setResultCh (resultCh st ++ [seg]) st))
            = resultCh st ++ [seg]) as -> by (by destruct st, pr).
    rewrite fmap_app. apply NoDup_app. split_and!; [done | | apply NoDup_singleton].
    intros b Hb Hb'. apply list_elem_of_singleton in Hb'. subst b.
    apply list_elem_of_fmap in Hb as (x & Hx1 & Hx2).
    rewrite (Hno x Hx2), Htg in Hx1. by destruct pr.
  - intros Hc. assert (closed st = true) as Hc' by (by destruct st, pr).
    destruct (Hcl Hc') as [Hi Hpr].
    destruct st, pr; simpl in *; subst; done.
Qed.

Lemma Inv_closer st : Inv st → Inv (closer st).
Proof.
  unfold closer. intros HI.
  destruct (finished (issuesW st) && finished (prsW st)) eqn:Hf; [|done].
  apply andb_true_iff in Hf. destruct st. destruct HI. by constructor.
Qed.

Lemma Inv_start s ctx n st : start s ctx n = Some st → Inv st.
Proof.
  unfold start, WithCancel.
  assert (∀ p, Inv (mkState n p false
            (if IncludeIssues (cfg s) then WFetch None [] [] ∅ else WOff)
            (if IncludePRs (cfg s) then WFetch None [] [] ∅ else WOff)
            [] false
            (MLoop (mkResult [] [] [] [] 0 (IncludeIssues (cfg s))
                      (IncludePRs (cfg s)) (CfgAudience (cfg s))) ∅))) as HI.
  { intros p.
    destruct (IncludeIssues (cfg s)), (IncludePRs (cfg s));
      (constructor; simpl;
       [ by intros []
       | intros seg Hin; by apply elem_of_nil in Hin
       | apply NoDup_nil_2
       | done
       | unfold mainOK, merged, received, inCh; simpl;
         split_and!; first [done | set_solver | by intros []] ]). }
  destruct ctx as [p|]; intros [= <-]; apply HI.
Qed.

Lemma nodup_head_tag seg rest :
  NoDup (seg_isPR <$> seg :: rest) →
  existsb (λ x, Bool.eqb (seg_isPR x) (seg_isPR seg)) rest = false.
Proof.
  rewrite fmap_cons. intros [Hni _]%NoDup_cons.
  apply existsb_tag_false. intros x Hx.
  assert (seg_isPR x ≠ seg_isPR seg) as Hne.
  { intros Heq. apply Hni. rewrite <- Heq. apply list_elem_of_fmap. eauto. }
  by destruct (seg_isPR x), (seg_isPR seg).
Qed.

Lemma Inv_receive st : Inv st → Inv (receive st).
Proof.
  intros HI. unfold receive.
  destruct (main st) as [res repoSet | res e] eqn:Hmain; [|done].
  destruct (resultCh st) as [|seg rest] eqn:Hch.
  - destruct (closed st) eqn:Hcl; [|done].
    destruct HI as [Htag Hchn Hnd Hclosed Hm].
    destruct (Hclosed Hcl) as [Hfi Hfp].
    unfold mainOK in Hm. rewrite Hmain in Hm.
    destruct Hm as (Hmg & Hrepo & Hall).
    destruct st as [n p c wi wp ch cl m]; simpl in *; subst.
    constructor; simpl; try done.
    unfold mainOK, merged, received, inCh, perCategory in *; simpl in *.
    destruct Hmg as (? & ? & ? & ?).
    split_and!; try done.
    + intros pr seg Hw.
      destruct pr; simpl in Hw; [apply (Hall true seg) | apply (Hall false seg)];
        simpl; by rewrite Hw.
    + by destruct wi, wp.
  - pose proof (nodup_head_tag seg rest) as Hhd. rewrite <- Hch in Hhd.
    specialize (Hhd (inv_nodup _ HI)).
    destruct HI as [Htag Hchn Hnd Hclosed Hm].
    unfold mainOK in Hm. rewrite Hmain in Hm.
    destruct Hm as (Hmg & Hrepo & Hall).
    pose proof (Hchn seg) as Hw. rewrite Hch in Hw. specialize (Hw ltac:(left)).
    rewrite Hch in Hnd. rewrite fmap_cons in Hnd. apply NoDup_cons in Hnd as [_ Hnd].
    assert (∀ x, x ∈ rest → workerOf (seg_isPR x) st = WDone x) as Hchn'.
    { intros x Hx. apply Hchn. rewrite Hch. by right. }
    destruct st as [n p c wi wp ch cl m]; simpl in *; subst.
    unfold merged, received, inCh in *; simpl in *.
    destruct (seg_err seg) as [e|] eqn:Herr.
    + constructor; simpl; try done.
      unfold mainOK, received, inCh; simpl.
      exists (seg_isPR seg), seg.
      destruct (seg_isPR seg) eqn:Htg; simpl in *; rewrite Hw, Hhd;
        (split_and!; [done | done |]); intros seg' Hs;
        [apply (Hall false seg') | apply (Hall true seg')]; simpl;
        by rewrite ?orb_false_l in *.
    + constructor; simpl; try done.
      unfold mainOK, merged, merge, received, inCh, mergeRepoSets, reposOf in *;
        simpl in *.
      destruct (seg_isPR seg) eqn:Htg; simpl in *; subst; rewrite ?Hhd in *;
        simpl in *; destruct Hmg as (-> & -> & -> & ->).
      * split_and!; try done.
        -- destruct (seg_repos seg); simpl; set_solver.
        -- intros [] x; simpl; rewrite ?Hhd;
             [by intros [= <-] | apply (Hall false x)].
      * split_and!; try done.
        -- destruct (seg_repos seg); simpl; set_solver.
        -- intros [] x; simpl; rewrite ?Hhd;
             [apply (Hall true x) | by intros [= <-]].
Qed.

Lemma isPR_paramsOf pr : isPR (paramsOf pr) = pr.
Proof. by destruct pr. Qed.

Lemma workerOf_setNet pr n st : workerOf pr (setNet n st) = workerOf pr st.
Proof. by destruct pr. Qed.

Lemma workerOf_cancel pr st : workerOf pr (cancel st) = workerOf pr st.
Proof. by destruct pr. Qed.

Lemma Inv_runSearch s pr st : Inv st → Inv (runSearch s (paramsOf pr) st).
Proof.
  intros HI. unfold runSearch. rewrite isPR_paramsOf.
  destruct (workerOf pr st) as [|cur ext int repos|e|seg|seg] eqn:Hw; try done.
  - destruct (graph s _ _ _ _ _) as [n [e|q]].
    + apply Inv_setWorker; [by apply Inv_setNet | | done | done].
      by rewrite workerOf_setNet, Hw.
    + destruct (searchNodes _ _ _ _) as [[ext' int'] repos'].
      destruct (HasNextPage q);
        (apply Inv_setWorker; [by apply Inv_setNet | | done | done]);
        by rewrite workerOf_setNet, Hw.
  - apply Inv_setWorker; [by apply Inv_cancel | | done | done].
    by rewrite workerOf_cancel, Hw.
  - case_match; [by apply Inv_send | done].
Qed.

Lemma Inv_step s a st : Inv st → Inv (step s a st).
Proof.
  destruct a; simpl.
  - apply Inv_runSearch.
  - apply Inv_closer.
  - apply Inv_receive.
  - apply Inv_parentCancel.
Qed.

Lemma Inv_run s sch st : Inv st → Inv (run s sch st).
Proof.
  unfold run. revert st.
  induction sch as [|a sch IH]; intros st HI; simpl; [done|].
  by apply IH, Inv_step.
Qed.

Lemma run_app s sch sch' st :
  run s (sch ++ sch') st = run s sch' (run s sch st).
Proof. unfold run. apply fold_left_app. Qed.

Lemma stateAt_Inv s ctx n sch st : stateAt s ctx n sch = Some st → Inv st.
Proof.
  unfold stateAt. destruct (start s ctx n) as [st0|] eqn:Hs; [|done].
  intros [= <-]. by eapply Inv_run, Inv_start.
Qed.

Lemma stateAt_app s ctx n sch sch' st :
  stateAt s ctx n sch = Some st →
  stateAt s ctx n (sch ++ sch') = Some (run s sch' st).
Proof.
  unfold stateAt. destruct (start s ctx n) as [st0|]; [|done].
  intros [= <-]. simpl. by rewrite run_app.
Qed.

Lemma Scan_stateAt s ctx n sch st :
  stateAt s ctx n sch = Some st → Scan s ctx n sch = outcomeOf st.
Proof.
  unfold stateAt, Scan. destruct (start s ctx n) as [st0|]; [|done].
  by intros [= <-].
Qed.

(** ** Progress towards the error return *)

Lemma firstErr_app ch x :
  firstErr (ch ++ [x]) =
    match firstErr ch with
    | Some k => Some k
    | None => match seg_err x with
              | Some _ => Some (S (length ch))
              | None => None
              end
    end.
Proof.
  induction ch as [|y ch IH]; simpl.
  - by destruct (seg_err x).
  - destruct (seg_err y); [done|]. rewrite IH.
    destruct (firstErr ch); [done|]. by destruct (seg_err x).
Qed.

Lemma firstErr_le ch k : firstErr ch = Some k → (1 ≤ k ≤ length ch)%nat.
Proof.
  revert k. induction ch as [|y ch IH]; intros k; simpl; [done|].
  destruct (seg_err y).
  - intros [= <-]. lia.
  - destruct (firstErr ch) as [j|]; [|done]. intros [= <-].
    specialize (IH j eq_refl). lia.
Qed.

Lemma togoOf_le m ch w k :
  (length ch ≤ 2)%nat → togoOf m ch w = Some k → (k ≤ 4)%nat.
Proof.
  unfold togoOf. intros Hlen Ht.
  destruct m as [res repoSet | res [e|]]; simplify_eq; [|lia].
  destruct (firstErr ch) as [j|] eqn:Hf.
  - apply firstErr_le in Hf. simplify_eq. lia.
  - repeat case_match; simplify_eq; lia.
Qed.

Lemma togo_le pr st k : Inv st → togo pr st = Some k → (k ≤ 4)%nat.
Proof. intros HI. apply togoOf_le, ch_length, HI. Qed.

Lemma togo_receive pr st k :
  Inv st → togo pr st = Some k →
  ∃ k', togo pr (receive st) = Some k' ∧ (k' ≤ k)%nat
        ∧ ((1 ≤ k ≤ 2)%nat → (k' < k)%nat).
Proof.
  intros HI. pose proof (inv_closed _ HI) as Hcl.
  unfold togo, receive.
  destruct st as [n p c wi wp ch cl m]; simpl in *.
  destruct m as [res repoSet | res [e|]]; simpl;
    [| intros [= <-]; exists 0%nat; split_and!; [done | lia | lia] | done].
  destruct ch as [|seg rest]; simpl.
  - destruct cl; simpl.
    + destruct (Hcl eq_refl) as [Hi Hp].
      destruct pr; simpl; [by destruct wp | by destruct wi].
    + intros Hk. exists k. split_and!; [done | lia |].
      destruct pr; simpl in *; repeat case_match; simplify_eq; lia.
  - destruct (seg_err seg) as [e|]; simpl.
    + intros [= <-]. exists 0%nat. split_and!; [by destruct pr | lia | lia].
    + destruct (firstErr rest) as [j|]; simpl.
      * intros [= <-]. exists j. split_and!; [by destruct pr | lia | lia].
      * intros Hk. exists k. split_and!; [by destruct pr | lia |].
        destruct pr; simpl in *; repeat case_match; simplify_eq; lia.
Qed.

(** What one move of a run changes. *)
Lemma runSearch_view s pr st :
  Inv st →
  main (runSearch s (paramsOf pr) st) = main st
  ∧ workerOf (negb pr) (runSearch s (paramsOf pr) st) = workerOf (negb pr) st
  ∧ match workerOf pr st with
    | WFetch _ _ _ _ =>
        resultCh (runSearch s (paramsOf pr) st) = resultCh st
        ∧ match workerOf pr (runSearch s (paramsOf pr) st) with
          | WFetch _ _ _ _ | WFailed _ => True
          | WSend seg => seg_err seg = None
          | _ => False
          end
    | WFailed e =>
        resultCh (runSearch s (paramsOf pr) st) = resultCh st
        ∧ workerOf pr (runSearch s (paramsOf pr) st)
          = WSend (mkSegment [] [] None pr (Some e))
        ∧ cancelled (runSearch s (paramsOf pr) st) = true
    | WSend seg =>
        resultCh (runSearch s (paramsOf pr) st) = resultCh st ++ [seg]
        ∧ workerOf pr (runSearch s (paramsOf pr) st) = WDone seg
    | WOff | WDone _ => runSearch s (paramsOf pr) st = st
    end.
Proof.
  intros HI. unfold runSearch. rewrite isPR_paramsOf.
  destruct (workerOf pr st) as [|cur ext int repos|e|seg|seg] eqn:Hw; try done.
  - destruct (graph s _ _ _ _ _) as [n [e|q]].
    + destruct st, pr; simpl in *; done.
    + destruct (searchNodes _ _ _ _) as [[ext' int'] repos'].
      destruct (HasNextPage q); destruct st, pr; simpl in *; done.
  - destruct st, pr; simpl in *; done.
  - assert (length (resultCh st) < resultChCap)%nat as Hroom.
    { apply (ch_room st pr HI). by rewrite Hw. }
    apply Nat.ltb_lt in Hroom. rewrite Hroom.
    destruct st, pr; simpl in *; done.
Qed.

(** A fetched page extends the repo set of its run by the repositories of
    the nodes that passed the prefix filter, whether the run goes on to the
    next page or is ready to send. *)
Lemma runSearch_fetch_repos s pr st cur ext int repos n q :
  workerOf pr st = WFetch cur ext int repos →
  graph s (net st) (ctxDone st) (queryString s (paramsOf pr)) graphPageSize cur
    = (n, inr q) →
  match workerOf pr (runSearch s (paramsOf pr) st) with
  | WFetch _ _ _ repos' =>
      repos' = list_to_set (tracked s (paramsOf pr) (Nodes q)) ∪ repos
  | WSend seg =>
      seg_repos seg
      = Some (list_to_set (tracked s (paramsOf pr) (Nodes q)) ∪ repos)
  | _ => False
  end.
Proof.
  intros Hw Hq. unfold runSearch. rewrite isPR_paramsOf, Hw, Hq.
  pose proof (searchNodes_repos s (paramsOf pr) (ext, int, repos) (Nodes q))
    as Hr.
  destruct (searchNodes _ _ _ _) as [[ext' int'] repos']. simpl in Hr.
  destruct (HasNextPage q); destruct st, pr; simpl in *; by subst.
Qed.

Lemma togo_runSearch s pr pr' st k :
  Inv st → togo pr st = Some k →
  ∃ k', togo pr (runSearch s (paramsOf pr') st) = Some k' ∧ (k' ≤ k)%nat
        ∧ (pr' = pr → (3 ≤ k)%nat → (k' < k)%nat).
Proof.
  intros HI Hk. pose proof (ch_length _ HI) as Hlen.
  destruct (runSearch_view s pr' st HI) as (Hm & Ho & Hv).
  unfold togo in *. rewrite Hm.
  destruct (main st) as [res repoSet | res [e|]]; simpl in *;
    [| simplify_eq; exists 0%nat; split_and!; [done | lia | lia] | done].
  destruct (decide (pr' = pr)) as [->|Hne].
  - clear Ho. destruct (workerOf pr st) as [|cur ext int repos|e|seg|seg] eqn:Hw.
    + rewrite Hv, Hw. exists k. split_and!; [done | lia |].
      intros _ ?. destruct (firstErr (resultCh st)) as [j|] eqn:Hf; [|done].
      apply firstErr_le in Hf. simplify_eq. lia.
    + destruct Hv as [-> Hv].
      destruct (firstErr (resultCh st)) as [j|] eqn:Hf; [|done].
      apply firstErr_le in Hf. simplify_eq.
      eexists. split_and!; [done | lia | lia].
    + destruct Hv as (-> & -> & _). simpl.
      destruct (firstErr (resultCh st)) as [j|] eqn:Hf.
      * apply firstErr_le in Hf. simplify_eq.
        eexists. split_and!; [done | lia | lia].
      * simplify_eq. exists 3%nat. split_and!; [done | lia | lia].
    + destruct Hv as (-> & ->). rewrite firstErr_app.
      assert (length (resultCh st) < resultChCap)%nat as Hroom.
      { apply (ch_room st pr HI). by rewrite Hw. }
      unfold resultChCap in Hroom.
      destruct (firstErr (resultCh st)) as [j|] eqn:Hf.
      * apply firstErr_le in Hf. simplify_eq.
        eexists. split_and!; [done | lia | lia].
      * destruct (seg_err seg); [|done]. simplify_eq.
        eexists. split_and!; [done | lia | lia].
    + rewrite Hv, Hw. exists k. split_and!; [done | lia |].
      intros _ ?. destruct (firstErr (resultCh st)) as [j|] eqn:Hf; [|done].
      apply firstErr_le in Hf. simplify_eq. lia.
  - assert (pr = negb pr') as -> by (by destruct pr, pr').
    rewrite Ho.
    destruct (workerOf pr' st) as [|cur ext int repos|e|seg|seg] eqn:Hw.
    + rewrite Hv. exists k. split_and!; [done | lia | done].
    + destruct Hv as [-> _]. exists k. split_and!; [done | lia | done].
    + destruct Hv as (-> & _). exists k. split_and!; [done | lia | done].
    + destruct Hv as (-> & _). rewrite firstErr_app.
      assert (length (resultCh st) < resultChCap)%nat as Hroom.
      { apply (ch_room st pr' HI). by rewrite Hw. }
      unfold resultChCap in Hroom.
      destruct (firstErr (resultCh st)) as [j|] eqn:Hf.
      * exists k. split_and!; [done | lia | done].
      * destruct (seg_err seg).
        -- eexists. split_and!; [done | | done].
           repeat case_match; simplify_eq; lia.
        -- exists k. split_and!; [done | lia | done].
    + rewrite Hv. exists k. split_and!; [done | lia | done].
Qed.

Lemma togo_closer pr st : togo pr (closer st) = togo pr st.
Proof. unfold closer. case_match; [|done]. by destruct st, pr. Qed.

Lemma togo_parentCancel pr st : togo pr (parentCancel st) = togo pr st.
Proof. unfold parentCancel. case_match; [done|]. by destruct st, pr. Qed.

Lemma togo_step s pr a st k :
  Inv st → togo pr st = Some k →
  ∃ k', togo pr (step s a st) = Some k' ∧ (k' ≤ k)%nat
        ∧ (head (plan pr k) = Some a → (k' < k)%nat).
Proof.
  intros HI Hk. destruct a as [pr'| | |]; simpl.
  - destruct (togo_runSearch s pr pr' st k HI Hk) as (k' & ? & ? & Hlt).
    exists k'. split_and!; [done | done |].
    destruct k as [|[|[|[|?]]]]; simpl; intros [=]; subst; apply Hlt; [done | lia | done | lia].
  - rewrite togo_closer. exists k. split_and!; [done | lia |].
    by destruct k as [|[|[|[|?]]]].
  - destruct (togo_receive pr st k HI Hk) as (k' & ? & ? & Hlt).
    exists k'. split_and!; [done | done |].
    destruct k as [|[|[|[|?]]]]; simpl; intros [=]; apply Hlt; lia.
  - rewrite togo_parentCancel. exists k. split_and!; [done | lia |].
    by destruct k as [|[|[|[|?]]]].
Qed.

Lemma subseq_nil_l (ys : list actor) : subseq [] ys = true.
Proof. by destruct ys. Qed.

Lemma subseq_tail x xs ys : subseq (x :: xs) ys = true → subseq xs ys = true.
Proof.
  revert x xs. induction ys as [|y ys IH]; intros x xs; [done|].
  destruct xs as [|x2 xs2]; [done|]. simpl. intros Hs.
  repeat case_bool_decide; eauto.
Qed.

Lemma plan_mono pr k k' sch :
  (k' ≤ k)%nat → (k ≤ 4)%nat →
  subseq (plan pr k) sch = true → subseq (plan pr k') sch = true.
Proof.
  intros Hle Hk.
  destruct k as [|[|[|[|[|?]]]]]; try lia;
    destruct k' as [|[|[|[|[|?]]]]]; try lia; cbn [plan]; intros Hs;
    try done; try apply subseq_nil_l;
    repeat (first [done | apply subseq_tail in Hs]).
Qed.

(** Once a run has failed, any schedule that gives it its two remaining
    turns and then the loop two turns ends with the error returned. *)
Lemma togo_run s pr sch st k :
  Inv st → togo pr st = Some k →
  subseq (plan pr k) sch = true →
  togo pr (run s sch st) = Some 0%nat.
Proof.
  revert st k. induction sch as [|a sch IH]; intros st k HI Hk Hs.
  - pose proof (togo_le _ _ _ HI Hk).
    destruct k as [|[|[|[|[|?]]]]]; simpl in Hs; try done; lia.
  - pose proof (togo_le _ _ _ HI Hk) as Hle.
    destruct (togo_step s pr a st k HI Hk) as (k' & Hk' & Hle' & Hlt).
    change (run s (a :: sch) st) with (run s sch (step s a st)).
    apply (IH _ k'); [by apply Inv_step | done |].
    destruct (decide (head (plan pr k) = Some a)) as [Hhd|Hhd].
    + specialize (Hlt Hhd).
      destruct k as [|[|[|[|[|?]]]]]; try lia; simpl in Hhd; simplify_eq;
        cbn [plan subseq] in Hs; rewrite bool_decide_eq_true_2 in Hs by done;
        [ apply (plan_mono pr 0) | apply (plan_mono pr 1)
        | apply (plan_mono pr 2) | apply (plan_mono pr 3) ];
        first [lia | exact Hs].
    + apply (plan_mono pr k); [done | done |].
      destruct k as [|[|[|[|[|?]]]]]; try lia; try apply subseq_nil_l;
        cbn [plan subseq head] in *;
        rewrite bool_decide_eq_false_2 in Hs by congruence; done.
Qed.

Lemma togo_zero pr st :
  togo pr st = Some 0%nat → ∃ res e, main st = MReturned res (Some e).
Proof.
  unfold togo, togoOf. destruct (main st) as [res repoSet | res [e|]]; [|eauto|done].
  destruct (firstErr (resultCh st)) as [j|] eqn:Hf.
  - apply firstErr_le in Hf. intros [= ->]. lia.
  - repeat case_match; done.
Qed.

Lemma togo_failed pr st e :
  Inv st → workerOf pr st = WFailed e → ∃ k, togo pr st = Some k.
Proof.
  intros HI Hw. pose proof (inv_main _ HI) as Hm.
  unfold mainOK, togo, togoOf in *. rewrite Hw.
  destruct (main st) as [res repoSet | res [e'|]]; [|eauto|].
  - destruct (firstErr (resultCh st)); eauto.
  - destruct Hm as (_ & Hi & Hp & _). exfalso.
    destruct st, pr; simpl in *; subst; done.
Qed.

Lemma togo_run_some s pr sch st k :
  Inv st → togo pr st = Some k → ∃ k', togo pr (run s sch st) = Some k'.
Proof.
  revert st k. induction sch as [|a sch IH]; intros st k HI Hk; [eauto|].
  destruct (togo_step s pr a st k HI Hk) as (k' & Hk' & _).
  change (run s (a :: sch) st) with (run s sch (step s a st)).
  eapply IH; [by apply Inv_step | done].
Qed.

(** ** Cancellation *)

Lemma cancelled_step s a st :
  cancelled st = true → cancelled (step s a st) = true.
Proof.
  intros Hc. destruct a as [pr| | |]; simpl;
    unfold runSearch, closer, receive, parentCancel;
    repeat case_match; destruct st; simpl in *;
    try done; by destruct pr.
Qed.

Lemma cancelled_run s sch st :
  cancelled st = true → cancelled (run s sch st) = true.
Proof.
  revert st. induction sch as [|a sch IH]; intros st Hc; [done|].
  change (run s (a :: sch) st) with (run s sch (step s a st)).
  by apply IH, cancelled_step.
Qed.

Lemma failed_step s pr e a st :
  Inv st →
  workerOf pr st = WFailed e ∨ cancelled st = true →
  (workerOf pr (step s a st) = WFailed e ∨ cancelled (step s a st) = true)
  ∧ (a = ARun pr → cancelled (step s a st) = true).
Proof.
  intros HI [Hw|Hc]; [|split; [right|intros _]; by apply cancelled_step].
  destruct a as [pr'| | |]; simpl.
  - destruct (runSearch_view s pr' st HI) as (_ & Ho & Hv).
    destruct (decide (pr' = pr)) as [->|Hne].
    + rewrite Hw in Hv. destruct Hv as (_ & _ & Hc). by split; [right|].
    + assert (pr = negb pr') as -> by (by destruct pr, pr').
      rewrite Ho. split; [by left | congruence].
  - split; [left | done]. unfold closer. case_match; [|done]. by destruct st, pr.
  - split; [|done]. unfold receive.
    repeat case_match; destruct st, pr; simpl in *; eauto.
  - split; [left | done]. unfold parentCancel. case_match; [done|].
    by destruct st, pr.
Qed.

Lemma failed_run s pr e sch st :
  Inv st →
  workerOf pr st = WFailed e ∨ cancelled st = true →
  workerOf pr (run s sch st) = WFailed e ∨ cancelled (run s sch st) = true.
Proof.
  revert st. induction sch as [|a sch IH]; intros st HI Hw; [done|].
  change (run s (a :: sch) st) with (run s sch (step s a st)).
  apply IH; [by apply Inv_step|]. by apply failed_step.
Qed.

(** C2: once the fetch of an enabled category has returned an error, the
    shared context is cancelled as soon as that run takes its next turn and
    stays so, so that every later page request of the sibling run is made
    under a done context; [Scan] never returns a nil error; and under every
    schedule that lets the failed run send its segment and the loop receive
    twice, [Scan] returns a non-nil error, which is the error of the one
    received segment that carried one. *)
Theorem Scan_fails_fast s ctx n sch st pr e :
  stateAt s ctx n sch = Some st →
  workerOf pr st = WFailed e →
  (∀ sch1 sch2, ∃ st',
     stateAt s ctx n (sch ++ sch1 ++ ARun pr :: sch2) = Some st'
     ∧ cancelled st' = true ∧ ctxDone st' = true)
  ∧ (∀ sch' res, Scan s ctx n (sch ++ sch') ≠ Returned res None)
  ∧ (∀ sch',
       subseq [ARun pr; ARun pr; AMain; AMain] sch' = true →
       ∃ st' res e' pr' seg,
         stateAt s ctx n (sch ++ sch') = Some st'
         ∧ Scan s ctx n (sch ++ sch') = Returned res (Some e')
         ∧ received pr' st' = Some seg ∧ seg_err seg = Some e'
         ∧ ∀ seg', received (negb pr') st' = Some seg' →
                   seg_err seg' = None).
Proof.
  intros Hst Hw. pose proof (stateAt_Inv _ _ _ _ _ Hst) as HI.
  destruct (togo_failed pr st e HI Hw) as [k Hk].
  split_and!.
  - intros sch1 sch2. eexists. split; [by apply stateAt_app|].
    assert (cancelled (run s (sch1 ++ ARun pr :: sch2) st) = true) as Hc.
    { rewrite run_app.
      change (run s (ARun pr :: sch2) (run s sch1 st))
        with (run s sch2 (step s (ARun pr) (run s sch1 st))).
      apply cancelled_run.
      eapply failed_step; [by apply Inv_run | | done].
      apply failed_run; eauto. }
    split; [done|]. unfold ctxDone. by rewrite Hc.
  - intros sch' res.
    rewrite (Scan_stateAt _ _ _ _ _ (stateAt_app _ _ _ _ sch' _ Hst)).
    destruct (togo_run_some s pr sch' st k HI Hk) as [k' Hk'].
    unfold outcomeOf, togo, togoOf in *.
    destruct (main (run s sch' st)) as [|? [|]]; congruence.
  - intros sch' Hs.
    assert (togo pr (run s sch' st) = Some 0%nat) as Hz.
    { apply (togo_run s pr sch' st k HI Hk).
      apply (plan_mono pr 4); [by eapply togo_le | lia | done]. }
    destruct (togo_zero _ _ Hz) as (res & e' & Hmain).
    pose proof (inv_main _ (Inv_run s sch' st HI)) as Hm.
    unfold mainOK in Hm. rewrite Hmain in Hm.
    destruct Hm as (pr' & seg & ? & ? & ?).
    exists (run s sch' st), res, e', pr', seg.
    split_and!; try done; [by apply stateAt_app|].
    rewrite (Scan_stateAt _ _ _ _ _ (stateAt_app _ _ _ _ sch' _ Hst)).
    unfold outcomeOf. by rewrite Hmain.
Qed.

(** ** The merged repository count *)

Lemma size_union_le (X Y : gset string) :
  (size (X ∪ Y) ≤ size X + size Y)%nat
  ∧ (size (X ∪ Y) = (size X + size Y)%nat ↔ X ## Y).
Proof.
  rewrite size_union_alt.
  assert (size (Y ∖ X) ≤ size Y)%nat as Hle by (apply subseteq_size; set_solver).
  split; [lia|]. split.
  - intros Heq. assert (Y ∖ X = Y) as HY.
    { apply set_subseteq_size_eq; [set_solver | lia]. }
    set_solver.
  - intros Hd. assert (Y ∖ X = Y) as -> by set_solver. done.
Qed.

(** C7: when [Scan] returns without error, both runs have finished and the
    [TotalRepos] of the Result is the size of the union of the repo sets
    they reported; it is at most the sum of their sizes, and equal to it
    exactly when the two sets are disjoint. *)
Theorem TotalRepos_union s ctx n sch st res :
  stateAt s ctx n sch = Some st →
  main st = MReturned res None →
  finished (issuesW st) = true ∧ finished (prsW st) = true
  ∧ TotalRepos res
    = Z.of_nat (size (perCategory false st ∪ perCategory true st))
  ∧ TotalRepos res
    ≤ Z.of_nat (size (perCategory false st))
      + Z.of_nat (size (perCategory true st))
  ∧ (TotalRepos res
     = Z.of_nat (size (perCategory false st))
       + Z.of_nat (size (perCategory true st))
     ↔ perCategory false st ## perCategory true st).
Proof.
  intros Hst Hmain. pose proof (stateAt_Inv _ _ _ _ _ Hst) as HI.
  pose proof (inv_main _ HI) as Hm. unfold mainOK in Hm. rewrite Hmain in Hm.
  destruct Hm as (_ & Hi & Hp & _ & _ & ->).
  destruct (size_union_le (perCategory false st) (perCategory true st))
    as [Hle Hiff].
  split_and!; [done | done | done | lia |].
  rewrite <- Hiff. lia.
Qed.

(** ** The return on the first error *)

Lemma returned_step s a st res e :
  Inv st → main st = MReturned res e →
  main (step s a st) = MReturned res e
  ∧ ∃ l, resultCh (step s a st) = resultCh st ++ l.
Proof.
  intros HI Hm. destruct a as [pr| | |]; simpl.
  - destruct (runSearch_view s pr st HI) as (-> & _ & Hv). split; [done|].
    destruct (workerOf pr st).
    + rewrite Hv. exists []. by rewrite app_nil_r.
    + destruct Hv as [-> _]. exists []. by rewrite app_nil_r.
    + destruct Hv as [-> _]. exists []. by rewrite app_nil_r.
    + destruct Hv as [-> _]. eauto.
    + rewrite Hv. exists []. by rewrite app_nil_r.
  - unfold closer. case_match; destruct st; simpl in *;
      (split; [done|]); exists []; by rewrite app_nil_r.
  - unfold receive. rewrite Hm. split; [done|]. exists []. by rewrite app_nil_r.
  - unfold parentCancel. case_match; destruct st; simpl in *;
      (split; [done|]); exists []; by rewrite app_nil_r.
Qed.

Lemma returned_run s sch st res e :
  Inv st → main st = MReturned res e →
  main (run s sch st) = MReturned res e
  ∧ ∃ l, resultCh (run s sch st) = resultCh st ++ l.
Proof.
  revert st. induction sch as [|a sch IH]; intros st HI Hm.
  - split; [done|]. exists []. by rewrite app_nil_r.
  - change (run s (a :: sch) st) with (run s sch (step s a st)).
    destruct (returned_step s a st res e HI Hm) as [Hm' [l Hl]].
    destruct (IH _ (Inv_step s a st HI) Hm') as [Hm'' [l' Hl']].
    split; [done|]. exists (l ++ l'). by rewrite Hl', Hl, app_assoc.
Qed.

(** C9, as the code has it: the loop returns the error of the first failed
    segment it receives at once, with what is still in the channel left
    there, and nothing is received after the return: the segments of the
    channel stay, and later ones queue up behind them.  No run is held up by
    that, because a run that is ready to send always finds room in the
    channel, whose capacity is two. *)
Theorem Scan_returns_without_draining s ctx n sch st :
  stateAt s ctx n sch = Some st →
  (∀ res repoSet seg rest e,
     main st = MLoop res repoSet → resultCh st = seg :: rest →
     seg_err seg = Some e →
     main (step s AMain st) = MReturned res (Some e)
     ∧ resultCh (step s AMain st) = rest)
  ∧ (∀ res e sch',
       main st = MReturned res e →
       main (run s sch' st) = MReturned res e
       ∧ ∃ l, resultCh (run s sch' st) = resultCh st ++ l)
  ∧ (∀ pr seg,
       workerOf pr st = WSend seg →
       (length (resultCh st) < resultChCap)%nat
       ∧ workerOf pr (step s (ARun pr) st) = WDone seg
       ∧ resultCh (step s (ARun pr) st) = resultCh st ++ [seg]).
Proof.
  intros Hst. pose proof (stateAt_Inv _ _ _ _ _ Hst) as HI. split_and!.
  - intros res repoSet seg rest e Hm Hch He. simpl. unfold receive.
    rewrite Hm, Hch, He. by destruct st.
  - intros res e sch' Hm. by apply returned_run.
  - intros pr seg Hw. split.
    + apply (ch_room st pr HI). by rewrite Hw.
    + simpl. destruct (runSearch_view s pr st HI) as (_ & _ & Hv).
      rewrite Hw in Hv. by destruct Hv.
Qed.

(** ** The nil context *)

(** C10: [Scan] with a nil context does not panic, and under every schedule
    it does what it does with the background context. *)
Theorem Scan_nil_context s n sch :
  Scan s None n sch ≠ Panicked
  ∧ Scan s None n sch = Scan s (Some Background) n sch.
Proof.
  split; [|reflexivity].
  unfold Scan, start, WithCancel, outcomeOf. by case_match.
Qed.
End Machine.

(** * The model at work *)

Section Examples.
Local Existing Instance ascii_strings.

(** The scanners of [Demo] are those [New] builds. *)
Example New_demo :
  New (Demo.config ["Bob"] "") (Some Demo.client)
  = inr (Demo.scanner ["Bob"] AudienceAll Demo.client).
Proof. vm_compute. reflexivity. Qed.

(** Audience all, no skip-set: alice's issue is internal, bob's pull request
    external, one repository. *)
Example Scan_scenario_all :
  Scan (Demo.scanner [] AudienceAll Demo.client) None () Demo.calm
  = Returned
      (mkResult [] [mkItem "infra-core" 1 "disk full" "alice" 1700000000]
                [mkItem "infra-core" 2 "fix typo" "bob" 1700000100] []
                1 true true AudienceAll)
      None.
Proof. vm_compute. reflexivity. Qed.

(** With [bob] skipped his pull request is gone and the repository still
    counts. *)
Example Scan_scenario_skip :
  Scan (Demo.scanner ["bob"] AudienceAll Demo.client) None () Demo.calm
  = Returned
      (mkResult [] [mkItem "infra-core" 1 "disk full" "alice" 1700000000]
                [] [] 1 true true AudienceAll)
      None.
Proof. vm_compute. reflexivity. Qed.

(** Audience external keeps bob's pull request only. *)
Example Scan_scenario_external :
  Scan (Demo.scanner [] AudienceExternal Demo.client) None () Demo.calm
  = Returned
      (mkResult [] []
                [mkItem "infra-core" 2 "fix typo" "bob" 1700000100] []
                1 true true AudienceExternal)
      None.
Proof. vm_compute. reflexivity. Qed.

(** A node of a repository outside the prefix reaches no buffer and is not
    tracked. *)
Example searchOne_other_repo :
  searchOne (Demo.scanner [] AudienceAll Demo.client) issueParams
    ([], [], ∅) Demo.otherIssue = ([], [], ∅).
Proof. reflexivity. Qed.

Lemma audience_filter_witness :
  extractItem Demo.aliceIssue (isPR issueParams)
    = (mkItem "infra-core" 1 "disk full" "alice" 1700000000,
       "infra-core", "alice", true, true)
  ∧ HasPrefix "infra-core"
      (RepoPrefix (cfg (Demo.scanner [] AudienceExternal Demo.client))) = true
  ∧ skipped (Demo.scanner [] AudienceExternal Demo.client) "alice" = false
  ∧ searchOne (Demo.scanner [] AudienceExternal Demo.client) issueParams
      ([], [], ∅) Demo.aliceIssue
    = ([], [], {["infra-core"]} ∪ ∅).
Proof.
  split_and!; [reflexivity | reflexivity | reflexivity |].
  refine (proj1 (proj2
    (audience_filter (Demo.scanner [] AudienceExternal Demo.client)
       issueParams [] [] ∅ Demo.aliceIssue
       (mkItem "infra-core" 1 "disk full" "alice" 1700000000)
       "infra-core" "alice" true _ _ _)) _); reflexivity.
Defined.

Lemma skip_filter_witness :
  extractItem Demo.bobPR (isPR prParams)
    = (mkItem "infra-core" 2 "fix typo" "bob" 1700000100,
       "infra-core", "bob", false, true)
  ∧ (searchOne (Demo.scanner ["Bob"] AudienceAll Demo.client) prParams
       ([], [], ∅) Demo.bobPR).1 = ([], []).
Proof.
  split; [reflexivity|].
  refine (proj1 (proj1
    (skip_filter (Demo.scanner ["Bob"] AudienceAll Demo.client)
       prParams [] [] ∅ Demo.bobPR
       (mkItem "infra-core" 2 "fix typo" "bob" 1700000100)
       "infra-core" "bob" false true _) _ _ _)).
  - reflexivity.
  - discriminate.
  - vm_compute. reflexivity.
  - vm_compute. reflexivity.
Defined.

(** An empty audience is none of all, internal, external, and [New]
    accepts it: the failure conditions of [New] are not those of C8. *)
Lemma New_accepts_empty_audience :
  ¬ (∀ (c : Config) (og : option (GraphQLClient unit)),
       (∃ e, New c og = inl e) ↔
         blank (Organization c) ∨ blank (RepoPrefix c) ∨ og = None
         ∨ validAudience (CfgAudience c) = false).
Proof.
  intros Hclaim.
  destruct (proj2 (Hclaim (Demo.config [] "") (Some Demo.client))) as [e He].
  - right. right. right. reflexivity.
  - vm_compute in He. discriminate He.
Qed.

Lemma Scan_fails_fast_witness :
  ∃ st,
    stateAt (Demo.scanner [] AudienceAll Demo.brokenClient) None ()
      [ARun false] = Some st
    ∧ workerOf false st = WFailed "boom"
    ∧ ∃ res e,
        Scan (Demo.scanner [] AudienceAll Demo.brokenClient) None ()
             ([ARun false] ++ [ARun true; ARun false; AParent; ARun false;
                               ACloser; AMain; ARun true; AMain])
        = Returned res (Some e).
Proof.
  eexists. split; [reflexivity|]. split; [reflexivity|].
  destruct (proj2 (proj2
    (Scan_fails_fast (Demo.scanner [] AudienceAll Demo.brokenClient)
       None () [ARun false] _ false "boom" eq_refl eq_refl))
    [ARun true; ARun false; AParent; ARun false; ACloser; AMain; ARun true;
     AMain] eq_refl) as (st' & res & e & pr' & seg & _ & HScan & _).
  exists res, e. exact HScan.
Defined.

Lemma TotalRepos_union_witness :
  ∃ st res,
    stateAt (Demo.scanner [] AudienceAll Demo.client) None () Demo.calm
      = Some st
    ∧ main st = MReturned res None
    ∧ TotalRepos res
      = Z.of_nat (size (perCategory false st ∪ perCategory true st)).
Proof.
  eexists _, _. split; [reflexivity|]. split; [reflexivity|].
  exact (proj1 (proj2 (proj2
    (TotalRepos_union (Demo.scanner [] AudienceAll Demo.client) None ()
       Demo.calm _ _ eq_refl eq_refl)))).
Defined.

Lemma Scan_returns_without_draining_witness :
  ∃ st seg,
    stateAt (Demo.scanner [] AudienceAll Demo.brokenClient) None ()
      [ARun true; ARun false; ARun false; ARun false] = Some st
    ∧ workerOf true st = WSend seg
    ∧ (length (resultCh st) < resultChCap)%nat.
Proof.
  eexists _, _. split; [reflexivity|]. split; [reflexivity|].
  exact (proj1 (proj2 (proj2
    (Scan_returns_without_draining
       (Demo.scanner [] AudienceAll Demo.brokenClient) None ()
       [ARun true; ARun false; ARun false; ARun false] _ eq_refl))
    true _ eq_refl)).
Defined.

(** The issue search fails while the pull-request run is about to send.
    The loop receives the failed segment and [Scan] returns its error; the
    pull-request segment, sent afterwards, is never received. *)
Lemma Scan_leaves_completion_undrained :
  ∃ st5 st res seg,
    stateAt (Demo.scanner [] AudienceAll Demo.brokenClient) None ()
      (take 5 Demo.hasty) = Some st5
    ∧ main st5 = MReturned res (Some "boom")
    ∧ workerOf true st5 = WSend seg
    ∧ stateAt (Demo.scanner [] AudienceAll Demo.brokenClient) None ()
        Demo.hasty = Some st
    ∧ main st = MReturned res (Some "boom")
    ∧ resultCh st = [seg]
    ∧ seg_isPR seg = true ∧ seg_err seg = None.
Proof.
  eexists _, _, _, _.
  split; [reflexivity|]. split; [reflexivity|]. split; [reflexivity|].
  split; [reflexivity|]. split; [reflexivity|]. split; [reflexivity|].
  split; reflexivity.
Qed.

End Examples.

(** * Further properties of the code *)

Section MoreProperties.
Context `{!GoStrings} {T : Type}.
Implicit Types (s : Scanner T) (g : GraphQLClient T) (st : state T).
Implicit Types (params : searchParams) (node : searchNode) (acc : buffers).
Implicit Types (pr : bool) (seg : segment) (w : worker).

(** ** The skip-set *)

Lemma buildSkip_fold users (m : gset string) (k : string) :
  k ∈ fold_left buildSkipStep users m ↔
    k ∈ m ∨ (k ≠ "" ∧ ∃ u, u ∈ users ∧ TrimSpace (ToLower u) = k).
Proof.
  revert m. induction users as [|u users IH]; intros m; simpl.
  - split; [by left|]. intros [?|(_ & u & Hu & _)]; [done|].
    by apply elem_of_nil in Hu.
  - rewrite IH. unfold buildSkipStep. split.
    + intros [Hk|(Hne & v & Hv & Heq)].
      * case_bool_decide as Hb; [by left|].
        apply elem_of_union in Hk as [Hk%elem_of_singleton|Hk]; [|by left].
        right. split; [by subst|]. exists u. split; [left|done].
      * right. split; [done|]. exists v. split; [by right|done].
    + intros [Hk|(Hne & v & Hv & Heq)].
      * left. case_bool_decide; set_solver.
      * apply elem_of_cons in Hv as [->|Hv].
        -- left. rewrite Heq. rewrite bool_decide_eq_false_2 by done. set_solver.
        -- right. eauto.
Qed.

Lemma buildSkip_size users (m : gset string) :
  (size (fold_left buildSkipStep users m) ≤ size m + length users)%nat.
Proof.
  revert m. induction users as [|u users IH]; intros m; simpl; [lia|].
  etrans; [apply IH|]. unfold buildSkipStep. case_bool_decide; [lia|].
  pose proof (size_union_alt (C := gset string) {[TrimSpace (ToLower u)]} m)
    as Hs.
  rewrite size_singleton in Hs.
  assert (size (m ∖ {[TrimSpace (ToLower u)]}) ≤ size m)%nat
    by (apply subseteq_size; set_solver).
  lia.
Qed.

Lemma setHas_buildSkipMap users (x : string) :
  setHas (buildSkipMap users) x = true ↔
    x ≠ "" ∧ ∃ u, u ∈ users ∧ TrimSpace (ToLower u) = x.
Proof.
  unfold buildSkipMap, setHas. destruct users as [|u users].
  - split; [done|]. intros (_ & v & Hv & _). by apply elem_of_nil in Hv.
  - rewrite bool_decide_eq_true, buildSkip_fold. set_solver.
Qed.

(** X1: a name is in the skip-set built from a list of users exactly when it
    is non-empty and is the lower-cased, trimmed form of one of them; the
    empty name is never in it; an empty list gives the nil map; the set has
    at most as many names as the list has users. *)
Theorem buildSkipMap_spec (users : list string) (k : string) :
  (setHas (buildSkipMap users) k = true ↔
     k ≠ "" ∧ ∃ u, u ∈ users ∧ TrimSpace (ToLower u) = k)
  ∧ setHas (buildSkipMap users) "" = false
  ∧ buildSkipMap [] = None
  ∧ 0 ≤ setLen (buildSkipMap users) ≤ Z.of_nat (length users).
Proof.
  split_and!.
  - apply setHas_buildSkipMap.
  - destruct (setHas (buildSkipMap users) "") eqn:Hh; [|done].
    apply setHas_buildSkipMap in Hh as [Hne _]. done.
  - reflexivity.
  - unfold buildSkipMap, setLen. destruct users; simpl; lia.
  - unfold buildSkipMap, setLen. destruct users as [|u users]; [simpl; lia|].
    pose proof (buildSkip_size (u :: users) ∅) as Hs.
    rewrite size_empty in Hs. lia.
Qed.

Lemma New_inr (c : Config) (og : option (GraphQLClient T)) s :
  New c og = inr s →
  ∃ g, og = Some g ∧ graph s = g
       ∧ skipUsers s = buildSkipMap (SkipUsers c)
       ∧ Organization (cfg s) = Organization c
       ∧ RepoPrefix (cfg s) = RepoPrefix c
       ∧ SkipUsers (cfg s) = SkipUsers c
       ∧ ¬ blank (Organization c) ∧ ¬ blank (RepoPrefix c)
       ∧ validAudience (CfgAudience (cfg s)) = true
       ∧ CfgAudience (cfg s)
         = (if bool_decide (CfgAudience c = "") then AudienceAll
            else CfgAudience c)
       ∧ (IncludeIssues (cfg s) = true ∨ IncludePRs (cfg s) = true)
       ∧ (IncludeIssues c = true ∨ IncludePRs c = true →
          IncludeIssues (cfg s) = IncludeIssues c
          ∧ IncludePRs (cfg s) = IncludePRs c).
Proof.
  unfold New, blank. destruct og as [g|]; [|done].
  repeat case_bool_decide; try done;
    (destruct (validAudience _) eqn:Hv; simpl; [|done]);
    intros [= <-]; simpl; exists g;
    rewrite ?bool_decide_eq_true_2, ?bool_decide_eq_false_2 by done;
    (split_and!; try done);
    destruct (IncludeIssues c), (IncludePRs c); simpl; naive_solver.
Qed.

(** X2: a scanner built by [New] skips an author exactly when the login is
    non-empty and its lower-cased form is non-empty and equal to the
    lower-cased, trimmed form of one of the configured skip users. *)
Theorem New_skips_configured_users (c : Config)
    (og : option (GraphQLClient T)) s (author : string) :
  New c og = inr s →
  (skipped s author = true ↔
     author ≠ "" ∧ ToLower author ≠ ""
     ∧ ∃ u, u ∈ SkipUsers c ∧ TrimSpace (ToLower u) = ToLower author).
Proof.
  intros (g & _ & _ & Hskip & _)%New_inr. unfold skipped. rewrite Hskip.
  rewrite !andb_true_iff, negb_true_iff, bool_decide_eq_false, Z.ltb_lt.
  rewrite setHas_buildSkipMap. split; [naive_solver|].
  intros (Ha & Hl & Hex). split_and!; try done.
  assert (setHas (buildSkipMap (SkipUsers c)) (ToLower author) = true) as Hh
    by (by apply setHas_buildSkipMap).
  unfold setHas, setLen in *. destruct (buildSkipMap (SkipUsers c)); [|done].
  apply bool_decide_eq_true in Hh.
  assert (size g0 ≠ 0%nat); [|lia]. intros Hz%size_empty_inv. set_solver.
Qed.

(** ** The extractor *)

Lemma extractItem_ok node pr item repoName author ia :
  extractItem node pr = (item, repoName, author, ia, true) →
  repoName ≠ "" ∧ Repo item = repoName ∧ Author item = author.
Proof.
  unfold extractItem. destruct pr.
  - destruct (idIsEmptyString _ || _) eqn:Hb; [done|].
    apply orb_false_iff in Hb as [_ Hn%bool_decide_eq_false].
    by intros [= <- <- <- <-].
  - destruct (idIsEmptyString _ || _) eqn:Hb; [done|].
    apply orb_false_iff in Hb as [_ Hn%bool_decide_eq_false].
    by intros [= <- <- <- <-].
Qed.

(** X3: the extractor looks only at the payload of the searched category;
    when it succeeds the repository name is non-empty and the Item carries
    that name and the login it returns; when it fails every output is the
    zero value. *)
Theorem extractItem_outputs (node : searchNode) (pr : bool) :
  (∀ other : searchNode,
     (if pr then PullRequest other = PullRequest node
      else Issue other = Issue node) →
     extractItem other pr = extractItem node pr)
  ∧ (∀ item repoName author ia,
       extractItem node pr = (item, repoName, author, ia, true) →
       repoName ≠ "" ∧ Repo item = repoName ∧ Author item = author)
  ∧ (∀ item repoName author ia,
       extractItem node pr = (item, repoName, author, ia, false) →
       item = zeroItem ∧ repoName = "" ∧ author = "" ∧ ia = false).
Proof.
  split_and!.
  - intros other Heq. unfold extractItem. destruct pr; by rewrite Heq.
  - apply extractItem_ok.
  - intros item repoName author ia. unfold extractItem.
    destruct pr; destruct (idIsEmptyString _ || _); by intros [= <- <- <- <-].
Qed.

(** ** The node loop *)

(** What one node does to the buffers. *)
Lemma searchOne_cases s params ext int repos node :
  searchOne s params (ext, int, repos) node = (ext, int, repos)
  ∨ ∃ item repoName author ia,
      extractItem node (isPR params) = (item, repoName, author, ia, true)
      ∧ HasPrefix repoName (RepoPrefix (cfg s)) = true
      ∧ (searchOne s params (ext, int, repos) node
           = (ext, int, {[repoName]} ∪ repos)
         ∨ (skipped s author = false ∧ ia = true
            ∧ CfgAudience (cfg s) ≠ AudienceExternal
            ∧ searchOne s params (ext, int, repos) node
              = (ext, int ++ [item], {[repoName]} ∪ repos))
         ∨ (skipped s author = false ∧ ia = false
            ∧ CfgAudience (cfg s) ≠ AudienceInternal
            ∧ searchOne s params (ext, int, repos) node
              = (ext ++ [item], int, {[repoName]} ∪ repos))).
Proof.
  destruct (extractItem node (isPR params)) as [[[[item repoName] author] ia] ok]
    eqn:Hex.
  destruct ok; [|left; apply searchOne_rejected; by rewrite Hex].
  destruct (HasPrefix repoName (RepoPrefix (cfg s))) eqn:Hp;
    [|left; by eapply searchOne_off_prefix].
  right. exists item, repoName, author, ia. split_and!; [done | done |].
  rewrite (searchOne_accepted _ _ _ _ _ _ _ _ _ _ Hex Hp).
  destruct (skipped s author); [by left|].
  destruct ia; repeat case_bool_decide; simpl; try (by left);
    [right; left | right; left | right; right | right; right];
    (split_and!; [done | done | | done]); done.
Qed.

(** A property of the buffers that every node keeps holds after a page. *)
Lemma searchNodes_keeps (Q : buffers → Prop) s params acc nodes :
  (∀ acc node, Q acc → Q (searchOne s params acc node)) →
  Q acc → Q (searchNodes s params acc nodes).
Proof.
  intros Hstep. unfold searchNodes. revert acc.
  induction nodes as [|node nodes IH]; intros acc HQ; simpl; [done|].
  by apply IH, Hstep.
Qed.

Lemma extracted_snoc params nodes node :
  extracted params (nodes ++ [node])
  = extracted params nodes
    ++ match extractedItem params node with
       | Some item => [item]
       | None => []
       end.
Proof.
  unfold extracted. rewrite omap_app. simpl.
  by destruct (extractedItem params node).
Qed.

Lemma searchNodes_snoc s params acc nodes node :
  searchNodes s params acc (nodes ++ [node])
  = searchOne s params (searchNodes s params acc nodes) node.
Proof. unfold searchNodes. by rewrite fold_left_app. Qed.

(** X4: the loop over a page only appends to the two buffers; what it
    appends to each is a subsequence, in page order, of the items extracted
    from the page, and every node contributes at most one item in all. *)
Theorem searchNodes_appends s params ext int repos nodes :
  ∃ ext' int',
    (searchNodes s params (ext, int, repos) nodes).1 = (ext ++ ext', int ++ int')
    ∧ ext' `sublist_of` extracted params nodes
    ∧ int' `sublist_of` extracted params nodes
    ∧ (length ext' + length int' ≤ length (extracted params nodes))%nat
    ∧ (length (extracted params nodes) ≤ length nodes)%nat.
Proof.
  induction nodes as [|node nodes IH] using rev_ind.
  - exists [], []. simpl. rewrite !app_nil_r. split_and!; done.
  - destruct IH as (e & i & Heq & Hse & Hsi & Hlen & Hn).
    rewrite searchNodes_snoc, extracted_snoc.
    destruct (searchNodes s params (ext, int, repos) nodes) as [[e0 i0] r0].
    simpl in Heq. injection Heq as -> ->.
    assert (length (extracted params nodes ++
                    match extractedItem params node with
                    | Some item => [item]
                    | None => []
                    end) ≤ length (nodes ++ [node]))%nat as Hn'.
    { rewrite !length_app. simpl. destruct (extractedItem params node); simpl; lia. }
    destruct (searchOne_cases s params (ext ++ e) (int ++ i) r0 node)
      as [->|(item & repoName & author & ia & Hex & _ & [->|[(_&_&_&->)|(_&_&_&->)]])].
    + exists e, i. simpl. split_and!; try done.
      * by apply sublist_inserts_r.
      * by apply sublist_inserts_r.
      * rewrite length_app. lia.
    + exists e, i. simpl. split_and!; try done.
      * by apply sublist_inserts_r.
      * by apply sublist_inserts_r.
      * rewrite length_app. lia.
    + assert (extractedItem params node = Some item) as Hei
        by (unfold extractedItem; by rewrite Hex).
      rewrite Hei in *. exists e, (i ++ [item]). simpl.
      rewrite <- !app_assoc. split_and!; try done.
      * by apply sublist_inserts_r.
      * by apply sublist_app.
      * rewrite !length_app. simpl. lia.
    + assert (extractedItem params node = Some item) as Hei
        by (unfold extractedItem; by rewrite Hex).
      rewrite Hei in *. exists (e ++ [item]), i. simpl.
      rewrite <- !app_assoc. split_and!; try done.
      * by apply sublist_app.
      * by apply sublist_inserts_r.
      * rewrite !length_app. simpl. lia.
Qed.

Lemma Scan_returned s ctx n sch res e :
  Scan s ctx n sch = Returned res e →
  ∃ st, stateAt s ctx n sch = Some st ∧ main st = MReturned res e.
Proof.
  unfold Scan, stateAt, outcomeOf.
  destruct (start s ctx n) as [st0|]; [|done]. simpl.
  destruct (main (run s sch st0)) eqn:Hm; [done|].
  intros [= <- <-]. eauto.
Qed.

End MoreProperties.

(** ** What the buffers of a run keep, from the page to the Result *)

Section Buffers.
Context `{!GoStrings} {T : Type}.
Variable s : Scanner T.
Variable Q : buffers → Prop.
Hypothesis Q_init : Q ([], [], ∅).
Hypothesis Q_step :
  ∀ pr acc node, Q acc → Q (searchOne s (paramsOf pr) acc node).
Implicit Types (st : state T) (pr : bool).

Lemma bufOK_runSearch pr st :
  (∀ pr', bufOK Q (workerOf pr' st)) →
  ∀ pr', bufOK Q (workerOf pr' (runSearch s (paramsOf pr) st)).
Proof.
  intros HQ pr'. pose proof (HQ pr) as Hpr. pose proof (HQ pr') as Hpr'.
  unfold runSearch. rewrite isPR_paramsOf.
  destruct (workerOf pr st) as [|cur ext int repos|e|seg|seg] eqn:Hw; try done.
  - destruct (graph s _ _ _ _ _) as [n [e|q]].
    + destruct st, pr, pr'; simpl in *; done.
    + pose proof (searchNodes_keeps Q s (paramsOf pr) (ext, int, repos) (Nodes q)
                    (Q_step pr) Hpr) as HQ'.
      destruct (searchNodes _ _ _ _) as [[ext' int'] repos'].
      destruct (HasNextPage q); destruct st, pr, pr'; simpl in *; eauto.
  - destruct st, pr, pr'; simpl in *; done.
  - case_match; [|done]. destruct st, pr, pr'; simpl in *; subst; done.
Qed.

Lemma bufOK_step a st :
  (∀ pr, bufOK Q (workerOf pr st)) →
  ∀ pr, bufOK Q (workerOf pr (step s a st)).
Proof.
  intros HQ pr. destruct a as [pr'| | |]; simpl.
  - by apply bufOK_runSearch.
  - unfold closer. case_match; [|done]. specialize (HQ pr). by destruct st, pr.
  - unfold receive. specialize (HQ pr).
    repeat case_match; destruct st, pr; simpl in *; done.
  - unfold parentCancel. specialize (HQ pr).
    case_match; destruct st, pr; simpl in *; done.
Qed.

Lemma bufOK_run sch st :
  (∀ pr, bufOK Q (workerOf pr st)) →
  ∀ pr, bufOK Q (workerOf pr (run s sch st)).
Proof.
  revert st. induction sch as [|a sch IH]; intros st HQ; [done|].
  change (run s (a :: sch) st) with (run s sch (step s a st)).
  by apply IH, bufOK_step.
Qed.

Lemma bufOK_stateAt ctx n sch st :
  stateAt s ctx n sch = Some st → ∀ pr, bufOK Q (workerOf pr st).
Proof.
  unfold stateAt, start, WithCancel.
  intros Hst. apply fmap_Some in Hst as (st0 & Hst0 & ->).
  apply bufOK_run. intros pr.
  destruct ctx as [p|]; simplify_eq; destruct pr; simpl; by case_match.
Qed.

(** When [Scan] returns without error, the lists of each category and the
    repo set its run reported have the property. *)
Lemma Scan_buffers ctx n sch st res :
  stateAt s ctx n sch = Some st → main st = MReturned res None →
  ∀ pr, Q (externalOf pr res, internalOf pr res, perCategory pr st).
Proof.
  intros Hst Hmain pr.
  pose proof (bufOK_stateAt _ _ _ _ Hst pr) as HQ.
  pose proof (inv_main _ (stateAt_Inv _ _ _ _ _ Hst)) as Hm.
  unfold mainOK in Hm. rewrite Hmain in Hm.
  destruct Hm as ((He1 & Hi1 & He2 & Hi2) & Hfi & Hfp & Hch & Herr & _).
  unfold received, inCh, perCategory, externalOf, internalOf in *.
  rewrite Hch in *. simpl in *.
  specialize (Herr pr).
  destruct pr; simpl in *.
  - rewrite He2, Hi2. destruct (prsW st) as [| | | |seg]; try done; simpl.
    simpl in HQ. rewrite (Herr seg eq_refl) in HQ. destruct HQ as (r & Hr & HQ).
    unfold reposOf. by rewrite Hr.
  - rewrite He1, Hi1. destruct (issuesW st) as [| | | |seg]; try done; simpl.
    simpl in HQ. rewrite (Herr seg eq_refl) in HQ. destruct HQ as (r & Hr & HQ).
    unfold reposOf. by rewrite Hr.
Qed.

End Buffers.


Section ScanResults.
Context `{!GoStrings} {T : Type}.
Implicit Types (s : Scanner T) (st : state T) (pr : bool) (acc : buffers).

Lemma uniqueRepoCount_set (items : list Item) :
  uniqueRepoCount items
  = Z.of_nat (size (list_to_set (Repo <$> items) : gset string)).
Proof.
  unfold uniqueRepoCount. do 2 f_equal.
  assert (∀ init : gset string,
            fold_left (λ (set : gset string) itm, {[Repo itm]} ∪ set) items init
            = list_to_set (Repo <$> items) ∪ init) as Hf.
  { induction items as [|it items IH]; intros init; simpl; [set_solver|].
    rewrite IH. set_solver. }
  rewrite Hf. set_solver.
Qed.

(** A property of the items that pass the filters holds of every item of a
    Result returned without error. *)
Lemma Scan_items (P : Item → Prop) s ctx n sch res :
  (∀ pr node item repoName author ia,
     extractItem node pr = (item, repoName, author, ia, true) →
     HasPrefix repoName (RepoPrefix (cfg s)) = true →
     skipped s author = false → P item) →
  Scan s ctx n sch = Returned res None →
  ∀ it, it ∈ allItems res → P it.
Proof.
  intros HP (st & Hst & Hmain)%Scan_returned.
  pose proof (Scan_buffers s (λ acc, ∀ it, it ∈ acc.1.1 ++ acc.1.2 → P it))
    as HB. simpl in HB.
  assert (∀ pr it, it ∈ externalOf pr res ++ internalOf pr res → P it) as Hall.
  { intros pr. eapply HB; [| |exact Hst|exact Hmain].
    - intros it Hit. by apply elem_of_nil in Hit.
    - clear -HP. intros pr [[ext int] repos] node HQ it.
      destruct (searchOne_cases s (paramsOf pr) ext int repos node)
        as [Heq|(item & repoName & author & ia & Hex & Hp
                 & [Heq|[(Hs&_&_&Heq)|(Hs&_&_&Heq)]])]; rewrite Heq;
        simpl in *; intros Hit; try (by apply HQ).
      + rewrite isPR_paramsOf in Hex.
        rewrite app_assoc in Hit.
        apply elem_of_app in Hit as [Hit|Hit%list_elem_of_singleton];
          [by apply HQ | subst; by eapply HP].
      + rewrite isPR_paramsOf in Hex.
        apply elem_of_app in Hit as [Hit|Hit].
        * apply elem_of_app in Hit as [Hit|Hit%list_elem_of_singleton];
            [apply HQ; set_solver | subst; by eapply HP].
        * apply HQ. set_solver. }
  intros it Hit. unfold allItems in Hit. rewrite app_assoc in Hit.
  apply elem_of_app in Hit as [Hit|Hit];
    [by apply (Hall false) | by apply (Hall true)].
Qed.

(** X5: every item of a Result returned without error is from a repository
    whose name is non-empty and starts with the configured prefix, and from
    an author the skip filter does not reject. *)
Theorem Scan_items_pass_filters s ctx n sch res :
  Scan s ctx n sch = Returned res None →
  ∀ it, it ∈ allItems res →
    Repo it ≠ ""
    ∧ HasPrefix (Repo it) (RepoPrefix (cfg s)) = true
    ∧ skipped s (Author it) = false.
Proof.
  apply (Scan_items (λ it, Repo it ≠ ""
                           ∧ HasPrefix (Repo it) (RepoPrefix (cfg s)) = true
                           ∧ skipped s (Author it) = false)).
  intros pr node item repoName author ia Hex Hp Hs.
  destruct (extractItem_ok _ _ _ _ _ _ Hex) as (Hne & -> & ->). done.
Qed.

(** X6: under audience internal the two external lists of a Result returned
    without error are empty, and under audience external the two internal
    lists are. *)
Theorem Scan_audience_lists s ctx n sch res :
  Scan s ctx n sch = Returned res None →
  (CfgAudience (cfg s) = AudienceInternal →
     ExternalIssues res = [] ∧ ExternalPRs res = [])
  ∧ (CfgAudience (cfg s) = AudienceExternal →
       InternalIssues res = [] ∧ InternalPRs res = []).
Proof.
  intros (st & Hst & Hmain)%Scan_returned.
  pose proof (Scan_buffers s
    (λ acc, (CfgAudience (cfg s) = AudienceInternal → acc.1.1 = [])
            ∧ (CfgAudience (cfg s) = AudienceExternal → acc.1.2 = [])))
    as HB. simpl in HB.
  assert (∀ pr,
    (CfgAudience (cfg s) = AudienceInternal → externalOf pr res = [])
    ∧ (CfgAudience (cfg s) = AudienceExternal → internalOf pr res = []))
    as Hall.
  { intros pr. eapply HB; [done| |exact Hst|exact Hmain].
    clear. intros pr [[ext int] repos] node [HQi HQe].
    destruct (searchOne_cases s (paramsOf pr) ext int repos node)
      as [Heq|(item & repoName & author & ia & _ & _
               & [Heq|[(_&_&Ha&Heq)|(_&_&Ha&Heq)]])]; rewrite Heq;
      simpl in *; done. }
  destruct (Hall false) as [Hfi Hfe], (Hall true) as [Hti Hte].
  split; intros Ha; split; auto.
Qed.

Lemma TotalRepos_at_return st res :
  Inv st → main st = MReturned res None →
  TotalRepos res
  = Z.of_nat (size (perCategory false st ∪ perCategory true st)).
Proof.
  intros HI Hmain. pose proof (inv_main _ HI) as Hm.
  unfold mainOK in Hm. rewrite Hmain in Hm. by destruct Hm as (_&_&_&_&_&->).
Qed.

(** X7: in a Result returned without error every listed item belongs to a
    counted repository: the number of distinct repositories over the four
    lists, and hence over each of them, is at most [TotalRepos]. *)
Theorem Scan_listed_repos_counted s ctx n sch res :
  Scan s ctx n sch = Returned res None →
  uniqueRepoCount (allItems res) ≤ TotalRepos res
  ∧ uniqueRepoCount (ExternalIssues res) ≤ TotalRepos res
  ∧ uniqueRepoCount (InternalIssues res) ≤ TotalRepos res
  ∧ uniqueRepoCount (ExternalPRs res) ≤ TotalRepos res
  ∧ uniqueRepoCount (InternalPRs res) ≤ TotalRepos res.
Proof.
  intros (st & Hst & Hmain)%Scan_returned.
  pose proof (Scan_buffers s
    (λ acc, ∀ it, it ∈ acc.1.1 ++ acc.1.2 → Repo it ∈ acc.2)) as HB.
  simpl in HB.
  assert (∀ pr it, it ∈ externalOf pr res ++ internalOf pr res →
                   Repo it ∈ perCategory pr st) as Hall.
  { intros pr. eapply HB; [| |exact Hst|exact Hmain].
    - intros it Hit. by apply elem_of_nil in Hit.
    - clear. intros pr [[ext int] repos] node HQ it.
      destruct (searchOne_cases s (paramsOf pr) ext int repos node)
        as [Heq|(item & repoName & author & ia & Hex & Hp
                 & [Heq|[(Hs&_&_&Heq)|(Hs&_&_&Heq)]])]; rewrite Heq;
        simpl in *; intros Hit; try (by apply HQ).
      + apply elem_of_union_r. by apply HQ.
      + destruct (extractItem_ok _ _ _ _ _ _ Hex) as (_ & Hr & _).
        rewrite app_assoc in Hit.
        apply elem_of_app in Hit as [Hit|Hit%list_elem_of_singleton];
          [apply elem_of_union_r; by apply HQ | subst; set_solver].
      + destruct (extractItem_ok _ _ _ _ _ _ Hex) as (_ & Hr & _).
        apply elem_of_app in Hit as [Hit|Hit].
        * apply elem_of_app in Hit as [Hit|Hit%list_elem_of_singleton];
            [apply elem_of_union_r; apply HQ; set_solver | subst; set_solver].
        * apply elem_of_union_r. apply HQ. set_solver. }
  rewrite (TotalRepos_at_return st res (stateAt_Inv _ _ _ _ _ Hst) Hmain).
  assert (∀ l : list Item, l ⊆ allItems res →
            uniqueRepoCount l
            ≤ Z.of_nat (size (perCategory false st ∪ perCategory true st)))
    as Hle.
  { intros l Hl. rewrite uniqueRepoCount_set. apply inj_le, subseteq_size.
    intros r Hr. apply elem_of_list_to_set, list_elem_of_fmap in Hr
      as (it & -> & Hit).
    apply Hl in Hit. unfold allItems in Hit. rewrite app_assoc in Hit.
    apply elem_of_app in Hit as [Hit|Hit];
      [apply elem_of_union_l; by apply (Hall false)
      | apply elem_of_union_r; by apply (Hall true)]. }
  unfold allItems in *.
  split_and!; apply Hle; set_solver.
Qed.

End ScanResults.

Section MachineMore.
Context `{!GoStrings} {T : Type}.
Implicit Types (s : Scanner T) (st : state T) (pr : bool) (seg : segment).
Implicit Types (w : worker).

(** ** Flags, echo and the count on an error return *)

Lemma flagsOK_start s ctx n st : start s ctx n = Some st → flagsOK s st.
Proof.
  unfold start, WithCancel, flagsOK, echoes, enabled.
  destruct ctx as [p|]; intros [= <-]; simpl;
    (split; [intros []; simpl; case_match; naive_solver|]);
    (split_and!; try done); intros []; simpl; done.
Qed.

Lemma flagsOK_runSearch s pr st :
  Inv st → flagsOK s st → flagsOK s (runSearch s (paramsOf pr) st).
Proof.
  intros HI [Hoff Hm].
  destruct (runSearch_view s pr st HI) as (Hmain & Ho & Hv).
  split; [|by rewrite Hmain].
  intros pr'. rewrite <- (Hoff pr').
  destruct (decide (pr' = pr)) as [->|Hne].
  - destruct (workerOf pr st) as [|cur ext int repos|e|seg|seg] eqn:Hw.
    + by rewrite Hv, Hw.
    + destruct Hv as [_ Hv]. split; [|done]. intros Hx. by rewrite Hx in Hv.
    + destruct Hv as (_ & -> & _). done.
    + destruct Hv as (_ & ->). done.
    + by rewrite Hv, Hw.
  - assert (pr' = negb pr) as -> by (by destruct pr, pr'). by rewrite Ho.
Qed.

Lemma flagsOK_receive s st : Inv st → flagsOK s st → flagsOK s (receive st).
Proof.
  intros HI [Hoff Hm]. unfold receive.
  destruct (main st) as [res repoSet | res e] eqn:Hmain; [|by split; [|rewrite Hmain]].
  destruct Hm as (Hecho & Htot & Hdis).
  pose proof Hecho as (? & ? & ?).
  destruct (resultCh st) as [|seg rest] eqn:Hch.
  - destruct (closed st); [|by split; [|rewrite Hmain]].
    split; [intros pr; rewrite <- (Hoff pr); by destruct st, pr|].
    destruct st; simpl in *. split; [done|].
    intros pr Hen. destruct (Hdis pr Hen). by destruct pr.
  - pose proof (inv_ch _ HI seg) as Hw. rewrite Hch in Hw.
    specialize (Hw ltac:(left)).
    assert (enabled s (seg_isPR seg) = true) as Hen.
    { destruct (enabled s (seg_isPR seg)) eqn:He; [done|].
      apply Hoff in He. congruence. }
    split; [intros pr; rewrite <- (Hoff pr);
            destruct (seg_err seg); by destruct st, pr|].
    destruct (seg_err seg); destruct st; simpl in *; [done|].
    unfold merge, echoes in *.
    destruct (seg_isPR seg); simpl in *; (split_and!; try done);
      intros pr Hdis'; destruct (Hdis pr Hdis') as [He Hi];
      destruct pr; simpl in *; try done; congruence.
Qed.

Lemma flagsOK_step s a st : Inv st → flagsOK s st → flagsOK s (step s a st).
Proof.
  intros HI HF. destruct a as [pr| | |]; simpl.
  - by apply flagsOK_runSearch.
  - unfold closer. case_match; [|done]. destruct HF as [Hoff Hm].
    split; [intros pr; rewrite <- (Hoff pr); by destruct st, pr|by destruct st].
  - by apply flagsOK_receive.
  - unfold parentCancel. case_match; [done|]. destruct HF as [Hoff Hm].
    split; [intros pr; rewrite <- (Hoff pr); by destruct st, pr|by destruct st].
Qed.

Lemma flagsOK_run s sch st : Inv st → flagsOK s st → flagsOK s (run s sch st).
Proof.
  revert st. induction sch as [|a sch IH]; intros st HI HF; [done|].
  change (run s (a :: sch) st) with (run s sch (step s a st)).
  apply IH; [by apply Inv_step | by apply flagsOK_step].
Qed.

Lemma flagsOK_stateAt s ctx n sch st :
  stateAt s ctx n sch = Some st → flagsOK s st.
Proof.
  unfold stateAt. intros Hst. apply fmap_Some in Hst as (st0 & Hst0 & ->).
  apply flagsOK_run; [by eapply Inv_start | by eapply flagsOK_start].
Qed.

(** X8: whatever [Scan] returns, the Result echoes the include flags and the
    audience of the scanner and has empty lists for a category that is not
    enabled; when [Scan] returns an error the [TotalRepos] of the Result is
    still zero. *)
Theorem Scan_result_flags s ctx n sch res e :
  Scan s ctx n sch = Returned res e →
  ResIncludeIssues res = IncludeIssues (cfg s)
  ∧ ResIncludePRs res = IncludePRs (cfg s)
  ∧ ResAudience res = CfgAudience (cfg s)
  ∧ (IncludeIssues (cfg s) = false →
     ExternalIssues res = [] ∧ InternalIssues res = [])
  ∧ (IncludePRs (cfg s) = false →
     ExternalPRs res = [] ∧ InternalPRs res = [])
  ∧ (e ≠ None → TotalRepos res = 0).
Proof.
  intros (st & Hst & Hmain)%Scan_returned.
  destruct (flagsOK_stateAt _ _ _ _ _ Hst) as [_ Hm]. rewrite Hmain in Hm.
  destruct e as [e|].
  - destruct Hm as ((?&?&?) & ? & Hdis).
    split_and!; try done; [apply (Hdis false) | apply (Hdis true)].
  - destruct Hm as ((?&?&?) & Hdis).
    split_and!; try done; [apply (Hdis false) | apply (Hdis true)].
Qed.

(** ** When the context is cancelled *)

Lemma cancelled_iff_step s a st :
  cancelled st
  = hasReturned (main st) || hasCancelled (issuesW st)
    || hasCancelled (prsW st) →
  cancelled (step s a st)
  = hasReturned (main (step s a st)) || hasCancelled (issuesW (step s a st))
    || hasCancelled (prsW (step s a st)).
Proof.
  intros Hc. destruct a as [pr| | |]; simpl.
  - unfold runSearch. rewrite isPR_paramsOf.
    destruct (workerOf pr st) as [|cur ext int repos|e|seg|seg] eqn:Hw; try done.
    + destruct (graph s _ _ _ _ _) as [n [e|q]].
      * destruct st, pr; simpl in *; subst; simpl in *; done.
      * destruct (searchNodes _ _ _ _) as [[ext' int'] repos'].
        destruct (HasNextPage q); destruct st, pr; simpl in *; subst;
          simpl in *; done.
    + destruct st, pr; simpl in *; subst; simpl;
        rewrite ?orb_true_r; done.
    + case_match; [|done]. destruct st, pr; simpl in *; subst; done.
  - unfold closer. case_match; [|done]. by destruct st.
  - unfold receive. repeat case_match; destruct st; simpl in *; subst; done.
  - unfold parentCancel. case_match; [done|]. by destruct st.
Qed.

Lemma cancelled_iff_stateAt s ctx n sch st :
  stateAt s ctx n sch = Some st →
  cancelled st
  = hasReturned (main st) || hasCancelled (issuesW st)
    || hasCancelled (prsW st).
Proof.
  unfold stateAt. intros Hst. apply fmap_Some in Hst as (st0 & Hst0 & ->).
  assert (cancelled st0
          = hasReturned (main st0) || hasCancelled (issuesW st0)
            || hasCancelled (prsW st0)) as H0.
  { unfold start, WithCancel in Hst0.
    destruct ctx; simplify_eq; simpl; by repeat case_match. }
  clear Hst0. revert st0 H0.
  induction sch as [|a sch IH]; intros st0 H0; [done|].
  change (run s (a :: sch) st0) with (run s sch (step s a st0)).
  by apply IH, cancelled_iff_step.
Qed.

(** X9: [Scan] has cancelled its context exactly when it has returned or the
    search of a run has failed and the run has gone on to report it; until
    then a page request sees the context done only if the caller's is. *)
Theorem Scan_cancels_only_on_failure_or_return s ctx n sch st :
  stateAt s ctx n sch = Some st →
  (cancelled st = true ↔
     (∃ res e, main st = MReturned res e)
     ∨ ∃ pr seg e, (workerOf pr st = WSend seg ∨ workerOf pr st = WDone seg)
                   ∧ seg_err seg = Some e)
  ∧ (cancelled st = false → ctxDone st = ctxErr (parent st)).
Proof.
  intros Hst. rewrite (cancelled_iff_stateAt _ _ _ _ _ Hst). split.
  - rewrite !orb_true_iff. split.
    + intros [[Hr|Hi]|Hp].
      * left. destruct (main st); [done|eauto].
      * right. exists false. simpl.
        destruct (issuesW st) as [| | |seg|seg]; try done; simpl in Hi;
          apply bool_decide_eq_true in Hi as [e He]; eauto 6.
      * right. exists true. simpl.
        destruct (prsW st) as [| | |seg|seg]; try done; simpl in Hp;
          apply bool_decide_eq_true in Hp as [e He]; eauto 6.
    + intros [(res & e & ->)|(pr & seg & e & Hw & He)]; [by left; left|].
      destruct pr; simpl in Hw; [right|left; right];
        destruct Hw as [->| ->]; simpl; apply bool_decide_eq_true; eauto.
  - rewrite <- (cancelled_iff_stateAt _ _ _ _ _ Hst). unfold ctxDone.
    by intros ->.
Qed.

(** ** The return without error *)

Lemma settled_finished st pr : settled st → finished (workerOf pr st) = true.
Proof. intros Hs. specialize (Hs pr). by destruct (workerOf pr st). Qed.

Lemma settled_step s a st :
  Inv st → settled st →
  settled (step s a st)
  ∧ (toReturn (step s a st) ≤ toReturn st)%nat
  ∧ (head (planReturn (toReturn st)) = Some a →
     (toReturn (step s a st) < toReturn st)%nat).
Proof.
  intros HI Hs. pose proof (ch_length _ HI) as Hlen.
  destruct a as [pr| | |]; simpl.
  - assert (runSearch s (paramsOf pr) st = st) as ->.
    { destruct (runSearch_view s pr st HI) as (_ & _ & Hv).
      pose proof (settled_finished st pr Hs). by destruct (workerOf pr st). }
    split_and!; [done | lia |].
    unfold toReturn. repeat case_match; simpl; try done;
      destruct (resultCh st) as [|? [|? [|]]]; simpl in *; try done; lia.
  - unfold closer.
    pose proof (settled_finished st false Hs) as Hf1.
    pose proof (settled_finished st true Hs) as Hf2.
    simpl in Hf1, Hf2. rewrite Hf1, Hf2. simpl. split_and!.
    + intros pr. specialize (Hs pr). by destruct st, pr.
    + unfold toReturn. destruct st as [n0 p0 c0 wi wp ch cl m]; simpl in *. repeat case_match; lia.
    + unfold toReturn. destruct st as [n0 p0 c0 wi wp ch cl m]; simpl in *.
      repeat case_match; simpl; try done; try lia;
        destruct ch as [|? [|? [|]]]; simpl in *; try done; lia.
  - unfold receive, toReturn.
    destruct (main st) as [res repoSet | res e] eqn:Hmain;
      [|rewrite Hmain; split_and!; [done | lia | done]].
    destruct (resultCh st) as [|seg rest] eqn:Hch.
    + destruct (closed st) eqn:Hcl.
      * split_and!; [intros pr; specialize (Hs pr); by destruct st, pr| |];
          destruct st as [n0 p0 c0 wi wp ch cl m]; simpl in *; subst; simpl; lia.
      * split_and!; [done | by rewrite Hmain, Hcl | by rewrite Hmain, Hcl].
    + pose proof (inv_ch _ HI seg) as Hw. rewrite Hch in Hw.
      specialize (Hw ltac:(left)).
      pose proof (Hs (seg_isPR seg)) as Herr. rewrite Hw in Herr.
      rewrite Herr.
      split_and!; [intros pr; specialize (Hs pr); by destruct st, pr| |];
        destruct st as [n0 p0 c0 wi wp ch cl m]; simpl in *; subst; simpl in *;
        destruct cl; simpl; try lia; try done.
  - unfold parentCancel. case_match; [split_and!; [done|lia|]|].
    + unfold toReturn. repeat case_match; simpl; try done;
        destruct (resultCh st) as [|? [|? [|]]]; simpl in *; try done; lia.
    + split_and!; [intros pr; specialize (Hs pr); by destruct st, pr| |];
        unfold toReturn; destruct st as [n0 p0 c0 wi wp ch cl m]; simpl in *; [lia|].
      repeat case_match; simpl; try done;
        destruct ch as [|? [|? [|]]]; simpl in *; try done; lia.
Qed.

Lemma toReturn_le st : Inv st → (toReturn st ≤ 4)%nat.
Proof.
  intros HI. pose proof (ch_length _ HI). unfold toReturn.
  repeat case_match; lia.
Qed.

Lemma planReturn_mono k k' sch :
  (k' ≤ k)%nat → (k ≤ 4)%nat →
  subseq (planReturn k) sch = true → subseq (planReturn k') sch = true.
Proof.
  intros Hle Hk.
  destruct k as [|[|[|[|[|?]]]]]; try lia;
    destruct k' as [|[|[|[|[|?]]]]]; try lia; cbn [planReturn]; intros Hs;
    try done; try apply subseq_nil_l;
    repeat (first [done | apply subseq_tail in Hs]).
Qed.

Lemma settled_run s sch st :
  Inv st → settled st →
  subseq (planReturn (toReturn st)) sch = true →
  settled (run s sch st) ∧ toReturn (run s sch st) = 0%nat.
Proof.
  revert st. induction sch as [|a sch IH]; intros st HI Hs Hsub.
  - split; [done|]. pose proof (toReturn_le _ HI) as Hle.
    remember (toReturn st) as k eqn:Hk.
    destruct k as [|[|[|[|[|?]]]]]; simpl in Hsub; try done; lia.
  - pose proof (toReturn_le _ HI) as Hle.
    destruct (settled_step s a st HI Hs) as (Hs' & Hle' & Hlt).
    change (run s (a :: sch) st) with (run s sch (step s a st)).
    apply IH; [by apply Inv_step | done |].
    remember (toReturn st) as k eqn:Hk.
    remember (toReturn (step s a st)) as k' eqn:Hk'.
    destruct (decide (head (planReturn k) = Some a)) as [Hhd|Hhd].
    + specialize (Hlt Hhd).
      destruct k as [|[|[|[|[|?]]]]]; try lia; simpl in Hhd;
        simplify_eq; cbn [planReturn subseq] in Hsub;
        rewrite bool_decide_eq_true_2 in Hsub by done;
        [ apply (planReturn_mono 0) | apply (planReturn_mono 1)
        | apply (planReturn_mono 2) | apply (planReturn_mono 3) ];
        first [lia | exact Hsub].
    + apply (planReturn_mono k); [done | done |].
      destruct k as [|[|[|[|[|?]]]]]; try lia;
        try apply subseq_nil_l; cbn [planReturn subseq head] in *;
        rewrite bool_decide_eq_false_2 in Hsub by congruence; done.
Qed.

(** X10: once every enabled run has sent its segment and none carries an
    error, every schedule that lets the channel be closed and then gives the
    loop three turns ends with [Scan] returned without error. *)
Theorem Scan_returns_when_settled s ctx n sch st sch' :
  stateAt s ctx n sch = Some st →
  settled st →
  subseq [ACloser; AMain; AMain; AMain] sch' = true →
  ∃ res, Scan s ctx n (sch ++ sch') = Returned res None.
Proof.
  intros Hst Hs Hsub. pose proof (stateAt_Inv _ _ _ _ _ Hst) as HI.
  assert (subseq (planReturn (toReturn st)) sch' = true) as Hplan.
  { apply (planReturn_mono 4); [apply toReturn_le, HI | lia | done]. }
  destruct (settled_run s sch' st HI Hs Hplan) as [Hs' Hz].
  rewrite (Scan_stateAt _ _ _ _ _ (stateAt_app _ _ _ _ sch' _ Hst)).
  pose proof (inv_main _ (Inv_run s sch' st HI)) as Hm.
  unfold toReturn in Hz. unfold mainOK in Hm. unfold outcomeOf.
  destruct (main (run s sch' st)) as [res repoSet | res [e|]].
  - by destruct (closed (run s sch' st)).
  - exfalso. destruct Hm as (pr & seg & Hr & He & _).
    unfold received in Hr. specialize (Hs' pr).
    destruct (workerOf pr (run s sch' st)); try done.
    destruct (inCh pr (run s sch' st)); by simplify_eq.
  - eauto.
Qed.

(** ** Independence of the schedule *)

Lemma runSearch_next s f pr st :
  pureClient s f → Inv st →
  workerOf pr (runSearch s (paramsOf pr) st)
  = nextWorker s f pr (workerOf pr st).
Proof.
  intros Hf HI. unfold runSearch, nextWorker. rewrite isPR_paramsOf.
  destruct (workerOf pr st) as [|cur ext int repos|e|seg|seg] eqn:Hw.
  - by rewrite Hw.
  - rewrite <- (Hf (net st) (ctxDone st) _ graphPageSize cur).
    destruct (graph s _ _ _ _ _) as [n [e|q]]; simpl.
    + by destruct st, pr.
    + destruct (searchNodes _ _ _ _) as [[ext' int'] repos'].
      destruct (HasNextPage q); by destruct st, pr.
  - by destruct st, pr.
  - assert (length (resultCh st) < resultChCap)%nat as Hroom.
    { apply (ch_room st pr HI). by rewrite Hw. }
    apply Nat.ltb_lt in Hroom. rewrite Hroom. by destruct st, pr.
  - by rewrite Hw.
Qed.

Lemma workerOf_step_other s a pr st :
  Inv st → a ≠ ARun pr → workerOf pr (step s a st) = workerOf pr st.
Proof.
  intros HI Hne. destruct a as [pr'| | |]; simpl.
  - destruct (runSearch_view s pr' st HI) as (_ & Ho & _).
    assert (pr = negb pr') as -> by (destruct pr, pr'; try done; by destruct Hne).
    done.
  - unfold closer. case_match; [|done]. by destruct st, pr.
  - unfold receive. repeat case_match; by destruct st, pr.
  - unfold parentCancel. case_match; [done|]. by destruct st, pr.
Qed.

Lemma trajectory s f ctx n sch st pr :
  pureClient s f → stateAt s ctx n sch = Some st →
  ∃ j, workerOf pr st = Nat.iter j (nextWorker s f pr) (firstWorker s pr).
Proof.
  intros Hf Hst. unfold stateAt in Hst.
  apply fmap_Some in Hst as (st0 & Hst0 & ->).
  assert (workerOf pr st0 = firstWorker s pr) as H0.
  { unfold start, WithCancel, firstWorker, enabled in *.
    destruct ctx; simplify_eq; by destruct pr. }
  pose proof (Inv_start _ _ _ _ Hst0) as HI. clear Hst0.
  assert (∃ j, workerOf pr st0
               = Nat.iter j (nextWorker s f pr) (firstWorker s pr)) as Hj
    by (exists 0%nat; done).
  clear H0. revert st0 HI Hj.
  induction sch as [|a sch IH]; intros st0 HI Hj; [done|].
  change (run s (a :: sch) st0) with (run s sch (step s a st0)).
  apply IH; [by apply Inv_step|].
  destruct Hj as [j Hj]. destruct (decide (a = ARun pr)) as [->|Hne].
  - exists (S j). simpl. rewrite (runSearch_next s f pr st0 Hf HI). by rewrite Hj.
  - exists j. by rewrite workerOf_step_other.
Qed.

Lemma nextWorker_finished s f pr w :
  finished w = true → nextWorker s f pr w = w.
Proof. by destruct w. Qed.

Lemma iter_finished s f pr w k :
  finished w = true → Nat.iter k (nextWorker s f pr) w = w.
Proof.
  intros Hw. induction k as [|k IH]; simpl; [done|].
  by rewrite IH, nextWorker_finished.
Qed.

Lemma finished_unique s f pr w0 j j' :
  finished (Nat.iter j (nextWorker s f pr) w0) = true →
  finished (Nat.iter j' (nextWorker s f pr) w0) = true →
  Nat.iter j (nextWorker s f pr) w0 = Nat.iter j' (nextWorker s f pr) w0.
Proof.
  intros Hj Hj'. destruct (decide (j ≤ j')%nat) as [Hle|Hle].
  - replace j' with ((j' - j) + j)%nat in * by lia.
    rewrite Nat.iter_add. symmetry. by apply iter_finished.
  - replace j with ((j - j') + j')%nat in * by lia.
    rewrite Nat.iter_add. by apply iter_finished.
Qed.

(** X11: with a client whose answers depend on the query and the cursor
    only, the Result [Scan] returns without error is the same under every
    schedule, caller context and transport state. *)
Theorem Scan_result_independent_of_schedule s f ctx n sch res ctx' n' sch' res' :
  pureClient s f →
  Scan s ctx n sch = Returned res None →
  Scan s ctx' n' sch' = Returned res' None →
  res = res'.
Proof.
  intros Hf (st & Hst & Hmain)%Scan_returned (st' & Hst' & Hmain')%Scan_returned.
  pose proof (inv_main _ (stateAt_Inv _ _ _ _ _ Hst)) as Hm.
  pose proof (inv_main _ (stateAt_Inv _ _ _ _ _ Hst')) as Hm'.
  destruct (flagsOK_stateAt _ _ _ _ _ Hst) as [_ HF].
  destruct (flagsOK_stateAt _ _ _ _ _ Hst') as [_ HF'].
  unfold mainOK in Hm, Hm'. rewrite Hmain in Hm, HF. rewrite Hmain' in Hm', HF'.
  destruct Hm as ((He1 & Hi1 & He2 & Hi2) & Hfi & Hfp & Hch & _ & Htot).
  destruct Hm' as ((He1' & Hi1' & He2' & Hi2') & Hfi' & Hfp' & Hch' & _ & Htot').
  destruct HF as [(Hf1 & Hf2 & Hf3) _], HF' as [(Hf1' & Hf2' & Hf3') _].
  assert (∀ pr, workerOf pr st = workerOf pr st') as Hw.
  { intros pr.
    destruct (trajectory s f _ _ _ _ pr Hf Hst) as [j Hj].
    destruct (trajectory s f _ _ _ _ pr Hf Hst') as [j' Hj'].
    rewrite Hj, Hj'. apply finished_unique; rewrite <- ?Hj, <- ?Hj';
      by destruct pr. }
  pose proof (Hw false) as Hwf. pose proof (Hw true) as Hwt. simpl in Hwf, Hwt.
  unfold received, inCh, perCategory in *. rewrite Hch in *. rewrite Hch' in *.
  simpl in *. rewrite Hwf, Hwt in *.
  destruct res, res'; simpl in *. congruence.
Qed.

End MachineMore.

Section CommandProperties.
Context `{!GoStrings} {T : Type}.
Implicit Types (s : Scanner T).

Lemma splitComma_nonempty (x : string) : splitComma x ≠ [].
Proof.
  induction x as [|c r IH]; simpl; [done|].
  destruct (Ascii.eqb c ","); [done|]. by destruct (splitComma r).
Qed.

Lemma splitComma_length (x : string) :
  (1 ≤ length (splitComma x) ≤ S (String.length x))%nat.
Proof.
  induction x as [|c r IH]; simpl; [lia|].
  destruct (Ascii.eqb c ","); simpl; [lia|].
  destruct (splitComma r); simpl in *; lia.
Qed.

Lemma omap_length_le {A B} (f : A → option B) (l : list A) :
  (length (omap f l) ≤ length l)%nat.
Proof.
  induction l as [|x l IH]; [done|].
  change (omap f (x :: l))
    with (match f x with Some y => y :: omap f l | None => omap f l end).
  destruct (f x); simpl; lia.
Qed.

Lemma splitComma_no_comma (x piece : string) :
  piece ∈ splitComma x → containsByte piece "," = false.
Proof.
  revert piece. induction x as [|c r IH]; simpl; intros piece.
  - by intros ->%list_elem_of_singleton.
  - destruct (Ascii.eqb c ",") eqn:Hc.
    + intros [->|Hin]%elem_of_cons; [done|by apply IH].
    + destruct (splitComma r) as [|p ps] eqn:Hs.
      * intros ->%list_elem_of_singleton. cbn [containsByte].
        by rewrite Ascii.eqb_sym, Hc.
      * intros [->|Hin]%elem_of_cons.
        -- cbn [containsByte]. rewrite Ascii.eqb_sym, Hc. apply IH. by left.
        -- apply IH. by right.
Qed.

Lemma splitComma_join (x : string) : String.concat "," (splitComma x) = x.
Proof.
  induction x as [|c r IH]; simpl; [done|].
  destruct (Ascii.eqb c ",") eqn:Hc.
  - apply Ascii.eqb_eq in Hc as ->.
    destruct (splitComma r) as [|p ps] eqn:Hs;
      [by destruct (splitComma_nonempty r)|].
    simpl in *. by rewrite IH.
  - destruct (splitComma r) as [|p ps] eqn:Hs;
      [by destruct (splitComma_nonempty r)|].
    simpl in *. destruct ps; simpl in *; by rewrite <- IH.
Qed.

Lemma omap_parseSkipPart (parts : list string) :
  omap parseSkipPart parts
  = filter (λ part, part ≠ "") ((λ part, TrimSpace (ToLower part)) <$> parts).
Proof.
  induction parts as [|p parts IH]; [done|].
  change (omap parseSkipPart (p :: parts))
    with (match parseSkipPart p with
          | Some y => y :: omap parseSkipPart parts
          | None => omap parseSkipPart parts
          end).
  rewrite fmap_cons, filter_cons. unfold parseSkipPart at 1.
  case_bool_decide; case_decide; simplify_eq; by rewrite IH.
Qed.

(** X12: the skip list parsed from the option is empty for a blank option;
    otherwise its entries are, in order, the lower-cased and trimmed pieces
    between the commas that are not empty: no entry is empty, and there are
    at most as many entries as pieces. *)
Theorem parseSkipList_spec (csv : string) :
  (TrimSpace csv = "" → parseSkipList csv = [])
  ∧ (TrimSpace csv ≠ "" →
     parseSkipList csv
     = filter (λ part, part ≠ "")
         ((λ part, TrimSpace (ToLower part)) <$> splitComma (TrimSpace csv)))
  ∧ (∀ x, x ∈ parseSkipList csv ↔
          x ≠ "" ∧ TrimSpace csv ≠ ""
          ∧ ∃ part, part ∈ splitComma (TrimSpace csv)
                    ∧ TrimSpace (ToLower part) = x)
  ∧ ("" ∉ parseSkipList csv)
  ∧ (length (parseSkipList csv) ≤ length (splitComma (TrimSpace csv)))%nat.
Proof.
  assert (∀ x, x ∈ parseSkipList csv ↔
               x ≠ "" ∧ TrimSpace csv ≠ ""
               ∧ ∃ part, part ∈ splitComma (TrimSpace csv)
                         ∧ TrimSpace (ToLower part) = x) as Hspec.
  { intros x. unfold parseSkipList. case_bool_decide as Hb.
    - split; [by intros ?%elem_of_nil | by intros (_ & ? & _)].
    - rewrite list_elem_of_omap. unfold parseSkipPart. split.
      + intros (part & Hin & Hp). case_bool_decide; simplify_eq. eauto.
      + intros (Hne & _ & part & Hin & <-). exists part. split; [done|].
        by rewrite bool_decide_eq_false_2. }
  split_and!.
  - intros Hb. unfold parseSkipList. by rewrite bool_decide_eq_true_2.
  - intros Hb. unfold parseSkipList. rewrite bool_decide_eq_false_2 by done.
    apply omap_parseSkipPart.
  - done.
  - intros Hin%Hspec. by destruct Hin.
  - unfold parseSkipList. case_bool_decide; simpl; [lia|].
    apply omap_length_le.
Qed.

Lemma parseAudience_inr (raw : string) (a : Audience) :
  parseAudience raw = inr a →
  validAudience a = true ∧ a ≠ ""
  ∧ (a = ToLower (TrimSpace raw)
     ∨ (a = AudienceAll ∧ ToLower (TrimSpace raw) = "")).
Proof.
  unfold parseAudience.
  repeat case_bool_decide; simpl; intros [= <-]; split_and!; try done; eauto.
Qed.

(** X13: the audience option is accepted exactly when its trimmed,
    lower-cased form is empty or one of all, internal, external; the result
    is then that form, with all for the empty one, and [New] takes it as it
    is. *)
Theorem parseAudience_spec (raw : string) :
  ((∃ a, parseAudience raw = inr a) ↔
     ToLower (TrimSpace raw) = ""
     ∨ validAudience (ToLower (TrimSpace raw)) = true)
  ∧ (ToLower (TrimSpace raw) = "" → parseAudience raw = inr AudienceAll)
  ∧ (validAudience (ToLower (TrimSpace raw)) = true →
     parseAudience raw = inr (ToLower (TrimSpace raw)))
  ∧ (∀ a c (g : GraphQLClient T) s,
       parseAudience raw = inr a → CfgAudience c = a →
       New c (Some g) = inr s → CfgAudience (cfg s) = a).
Proof.
  assert (ToLower (TrimSpace raw) = "" → parseAudience raw = inr AudienceAll)
    as Hempty.
  { intros Hv. unfold parseAudience. rewrite Hv. by repeat case_bool_decide. }
  assert (validAudience (ToLower (TrimSpace raw)) = true →
          parseAudience raw = inr (ToLower (TrimSpace raw))) as Hvalid.
  { intros Hv. apply validAudience_spec in Hv. unfold parseAudience.
    destruct Hv as [Hv|[Hv|Hv]]; rewrite Hv; by repeat case_bool_decide. }
  split_and!; [|done|done|].
  - split.
    + intros [a (Hv & _ & [<-|[_ ?]])%parseAudience_inr]; [by right|by left].
    + intros [?|?]; eauto.
  - intros a c g s (Hv & Hne & _)%parseAudience_inr Hc HN.
    apply New_inr in HN as (_ & _ & _ & _ & _ & _ & _ & _ & _ & _ & Ha & _).
    rewrite Ha, Hc. by rewrite bool_decide_eq_false_2.
Qed.

Lemma New_succeeds (c : Config) (g : GraphQLClient T) :
  ¬ blank (Organization c) → ¬ blank (RepoPrefix c) →
  CfgAudience c = "" ∨ validAudience (CfgAudience c) = true →
  ∃ s, New c (Some g) = inr s.
Proof.
  unfold New, blank. intros Ho Hp Ha.
  rewrite !bool_decide_eq_false_2 by done.
  case_bool_decide as Hb; simpl; [eauto|].
  destruct Ha as [?| ->]; [done|]. simpl. eauto.
Qed.

(** X14: [run] gives up before scanning exactly when the token is blank,
    both categories are switched off, the audience option is not recognised,
    or the organization or the prefix is blank.  Otherwise it scans with the
    client built from the trimmed token and with exactly the requested
    categories, of which one at least is enabled; the defaults of [New] for
    the categories and for the audience never apply. *)
Theorem runSetup_spec (token : string)
    (buildGitHubClient : string → GraphQLClient T) (opts : rootOptions) :
  ((∃ e, runSetup token buildGitHubClient opts = inl e) ↔
     blank token
     ∨ (opt_issues opts = false ∧ opt_prs opts = false)
     ∨ (ToLower (TrimSpace (opt_aud opts)) ≠ ""
        ∧ validAudience (ToLower (TrimSpace (opt_aud opts))) = false)
     ∨ blank (opt_org opts) ∨ blank (opt_prefix opts))
  ∧ (∀ s, runSetup token buildGitHubClient opts = inr s →
       graph s = buildGitHubClient (TrimSpace token)
       ∧ Organization (cfg s) = opt_org opts
       ∧ RepoPrefix (cfg s) = opt_prefix opts
       ∧ IncludeIssues (cfg s) = opt_issues opts
       ∧ IncludePRs (cfg s) = opt_prs opts
       ∧ (opt_issues opts = true ∨ opt_prs opts = true)
       ∧ validAudience (CfgAudience (cfg s)) = true
       ∧ CfgAudience (cfg s)
         = (if bool_decide (ToLower (TrimSpace (opt_aud opts)) = "")
            then AudienceAll else ToLower (TrimSpace (opt_aud opts)))
       ∧ skipUsers s = buildSkipMap (parseSkipList (opt_skip opts))).
Proof.
  unfold runSetup, blank.
  destruct (bool_decide (TrimSpace token = "")) eqn:Ht.
  { apply bool_decide_eq_true in Ht. split; [|done].
    split; [by left | eauto]. }
  apply bool_decide_eq_false in Ht.
  destruct (negb (opt_issues opts) && negb (opt_prs opts)) eqn:Hf.
  { apply andb_true_iff in Hf as [Hi%negb_true_iff Hp%negb_true_iff].
    split; [|done]. split; [by right; left | eauto]. }
  assert (opt_issues opts = true ∨ opt_prs opts = true) as Hone
    by (destruct (opt_issues opts), (opt_prs opts); simpl in Hf; auto).
  destruct (parseAudience (opt_aud opts)) as [e|a] eqn:Hpa.
  { assert (ToLower (TrimSpace (opt_aud opts)) ≠ ""
            ∧ validAudience (ToLower (TrimSpace (opt_aud opts))) = false)
      as Hbad.
    { unfold parseAudience, validAudience in *.
      repeat case_bool_decide; simplify_eq; done. }
    split; [|done]. split; [by right; right; left | eauto]. }
  pose proof (parseAudience_inr _ _ Hpa) as (Hv & Hne & Hform).
  split.
  - split.
    + intros [e He]. right. right. right.
      destruct (decide (TrimSpace (opt_org opts) = "")) as [|Ho]; [by left|].
      destruct (decide (TrimSpace (opt_prefix opts) = "")) as [|Hp]; [by right|].
      exfalso.
      destruct (New_succeeds
                  (mkConfig (opt_org opts) (opt_prefix opts)
                     (parseSkipList (opt_skip opts)) (opt_issues opts)
                     (opt_prs opts) a) (buildGitHubClient (TrimSpace token)))
        as [s Hs]; [done | done | by right |].
      congruence.
    + intros [?|[[Hi Hp]|[[Hn Hbad]|Hblank]]]; [done| | |].
      * destruct Hone; congruence.
      * exfalso. destruct Hform as [->|[-> ?]]; [congruence|done].
      * destruct (New _ _) as [e|s] eqn:HN; [eauto|].
        apply New_inr in HN as (_&_&_&_&_&_&_&Ho&Hp&_). simpl in *.
        unfold blank in *. tauto.
  - intros s HN.
    apply New_inr in HN
      as (g & [= <-] & Hg & Hsk & Ho & Hp & _ & _ & _ & Hva & Ha & _ & Hfl).
    simpl in *. destruct (Hfl Hone) as [-> ->].
    split_and!; try done.
    rewrite Ha. rewrite (bool_decide_eq_false_2 (a = "")) by done.
    destruct Hform as [->|[-> Hz]].
    + by rewrite bool_decide_eq_false_2.
    + by rewrite bool_decide_eq_true_2.
Qed.

End CommandProperties.

Section ReportProperties.
Context `{!GoStrings} `{!GoUnicode} `{!Clock}.

(** ** Counting repositories *)

Lemma remove_dups_length_le {A} `{EqDecision A} (l : list A) :
  (length (remove_dups l) ≤ length l)%nat.
Proof.
  induction l as [|x l IH]; simpl; [done|]. case_decide; simpl; lia.
Qed.

(** X15: [uniqueRepoCount] is the number of distinct repository names among
    the items: between zero and the number of items, zero for no items only,
    and the same for every arrangement of the items. *)
Theorem uniqueRepoCount_spec (items : list Item) :
  uniqueRepoCount items = Z.of_nat (length (remove_dups (Repo <$> items)))
  ∧ 0 ≤ uniqueRepoCount items ≤ Z.of_nat (length items)
  ∧ (uniqueRepoCount items = 0 ↔ items = [])
  ∧ (∀ items', items ≡ₚ items' →
       uniqueRepoCount items' = uniqueRepoCount items).
Proof.
  assert (∀ l : list Item,
            uniqueRepoCount l = Z.of_nat (length (remove_dups (Repo <$> l))))
    as Hcount.
  { intros l. rewrite uniqueRepoCount_set. f_equal.
    rewrite <- (size_list_to_set (C := gset string) (remove_dups (Repo <$> l)))
      by apply NoDup_remove_dups.
    f_equal. apply set_eq. intros x.
    by rewrite !elem_of_list_to_set, elem_of_remove_dups. }
  split_and!.
  - apply Hcount.
  - rewrite Hcount. lia.
  - rewrite Hcount.
    pose proof (remove_dups_length_le (Repo <$> items)) as Hle.
    rewrite length_fmap in Hle. lia.
  - rewrite Hcount. split.
    + intros Hz. destruct items as [|it items]; [done|]. exfalso.
      assert (Repo it ∈ remove_dups (Repo <$> it :: items)) as Hin
        by (apply elem_of_remove_dups; left).
      destruct (remove_dups (Repo <$> it :: items)); [|simpl in Hz; lia].
      by apply elem_of_nil in Hin.
    + by intros ->.
  - intros items' Hp. rewrite !uniqueRepoCount_set. do 2 f_equal.
    apply set_eq. intros x. rewrite !elem_of_list_to_set. by rewrite Hp.
Qed.

(** ** Titles *)

Lemma string_length_app (a b : string) :
  String.length (a ++ b)%string = (String.length a + String.length b)%nat.
Proof. induction a as [|c a IH]; simpl; [done|]. by rewrite IH. Qed.

Lemma substring_length_le (n m : nat) (x : string) :
  (String.length (substring n m x) ≤ m)%nat.
Proof.
  revert n m. induction x as [|c x IH]; intros n m.
  - destruct n, m; simpl; lia.
  - destruct n as [|n]; [destruct m as [|m]|]; simpl; [lia| |done].
    specialize (IH 0%nat m). lia.
Qed.

Lemma substring_prefix_length (m : nat) (x : string) :
  (m ≤ String.length x)%nat → String.length (substring 0 m x) = m.
Proof.
  revert m. induction x as [|c x IH]; intros m Hm; simpl in *.
  - by destruct m; [|lia].
  - destruct m as [|m]; simpl; [done|]. rewrite IH; lia.
Qed.

(** X16: a title that fits the limit is returned as it is; with a negative
    limit [truncateTitle] panics; with a limit of at least zero it does not,
    a title that does not fit a limit of at most three is cut to exactly the
    limit, and one that does not fit a larger limit ends in three dots and,
    [TrimSpace] not making the cut longer, fits the limit. *)
Theorem truncateTitle_spec (title : string) (limit : Z) :
  (Z.of_nat (String.length title) ≤ limit →
     truncateTitle title limit = Some title)
  ∧ (limit < 0 → truncateTitle title limit = None)
  ∧ (0 ≤ limit →
     ∃ r, truncateTitle title limit = Some r
          ∧ (limit < Z.of_nat (String.length title) → limit ≤ 3 →
             Z.of_nat (String.length r) = limit)
          ∧ (limit < Z.of_nat (String.length title) → 3 < limit →
             r = (TrimSpace (substring 0 (Z.to_nat (limit - 3)) title)
                  ++ "...")%string)
          ∧ ((String.length
                (TrimSpace (substring 0 (Z.to_nat (limit - 3)) title))
              ≤ String.length (substring 0 (Z.to_nat (limit - 3)) title))%nat →
             Z.of_nat (String.length r) ≤ limit)).
Proof.
  unfold truncateTitle. split_and!.
  - intros Hfit. apply Z.leb_le in Hfit. by rewrite Hfit.
  - intros Hneg.
    destruct (Z.leb_spec (Z.of_nat (String.length title)) limit); [lia|].
    destruct (Z.leb_spec limit 3); [|lia].
    destruct (Z.ltb_spec limit 0); [done|lia].
  - intros Hpos.
    destruct (Z.leb_spec (Z.of_nat (String.length title)) limit) as [Hfit|Hlong].
    { exists title. split_and!; [done | lia | lia | lia]. }
    destruct (Z.leb_spec limit 3) as [Hsmall|Hbig].
    + destruct (Z.ltb_spec limit 0); [lia|].
      eexists. split_and!; [done | | lia |].
      * intros _ _. rewrite substring_prefix_length; lia.
      * intros _. rewrite substring_prefix_length; lia.
    + eexists. split_and!; [done | lia | done |].
      intros Hlaw. rewrite string_length_app. simpl.
      pose proof (substring_length_le 0 (Z.to_nat (limit - 3)) title). lia.
Qed.

(** ** Ages *)

(** X17: the age label by the number of whole days since the creation:
    today, 1 day, then days up to 6, weeks from 1 to 4 up to 29 days, months
    from 1 to 12 up to 364 days, years from 365 days on; a count of one has
    its own singular label; a negative number of days, for a creation time
    in the future, is shown as it is, in days. *)
Theorem formatAge_spec (created : DateTime) :
  (daysSince created = 0 → formatAge created = "today")
  ∧ (daysSince created = 1 → formatAge created = "1 day")
  ∧ (daysSince created < 0 ∨ 2 ≤ daysSince created < 7 →
     formatAge created = (pretty (daysSince created) ++ " days")%string)
  ∧ (7 ≤ daysSince created < 14 → formatAge created = "1 week")
  ∧ (14 ≤ daysSince created < 30 →
     formatAge created = (pretty (daysSince created / 7) ++ " weeks")%string
     ∧ 2 ≤ daysSince created / 7 ≤ 4)
  ∧ (30 ≤ daysSince created < 60 → formatAge created = "1 month")
  ∧ (60 ≤ daysSince created < 365 →
     formatAge created = (pretty (daysSince created / 30) ++ " months")%string
     ∧ 2 ≤ daysSince created / 30 ≤ 12)
  ∧ (365 ≤ daysSince created < 730 → formatAge created = "1 year")
  ∧ (730 ≤ daysSince created →
     formatAge created = (pretty (daysSince created / 365) ++ " years")%string
     ∧ 2 ≤ daysSince created / 365).
Proof.
  unfold formatAge. generalize (daysSince created). intros d.
  assert (∀ k, 0 < k → 0 ≤ d → Z.quot d k = d / k) as Hq
    by (intros; apply Z.quot_div_nonneg; lia).
  assert (∀ k, 0 < k → d = k * (d / k) + d mod k ∧ 0 ≤ d mod k < k) as Hdiv.
  { intros k Hk. split; [apply Z.div_mod; lia | apply Z.mod_pos_bound; lia]. }
  destruct (Hdiv 7 ltac:(lia)) as [H7 H7'].
  destruct (Hdiv 30 ltac:(lia)) as [H30 H30'].
  destruct (Hdiv 365 ltac:(lia)) as [H365 H365'].
  clear Hdiv.
  split_and!; intros Hd;
    repeat match goal with
      | |- context [Z.eqb ?a ?b] => destruct (Z.eqb_spec a b)
      | |- context [Z.ltb ?a ?b] => destruct (Z.ltb_spec a b)
      end;
    rewrite ?Hq in * by lia;
    first [lia | done | split; [done|lia] ].
Qed.

Lemma indexAny_None (x chars : string) :
  indexAny x chars = None ↔
  ∀ c, c ∈ list_ascii_of_string x → containsByte chars c = false.
Proof.
  induction x as [|c x IH]; simpl.
  - split; [|done]. intros _ c Hc. by apply elem_of_nil in Hc.
  - destruct (containsByte chars c) eqn:Hc.
    + split; [done|]. intros Hall. rewrite (Hall c) in Hc by left. done.
    + rewrite fmap_None, IH. split.
      * intros Hall d [->|Hd]%elem_of_cons; auto.
      * intros Hall d Hd. apply Hall. by right.
Qed.

(** X18: [stripDescriptor] changes a title only when its first colon or
    hyphen is not at the start, what precedes it is, once trimmed,
    non-empty and made of letters and spaces, and what follows it is, once
    trimmed, non-empty; the result is then that trimmed remainder.  A title
    without colon and hyphen is returned as it is, and a non-empty title
    never becomes empty. *)
Theorem stripDescriptor_spec (title : string) :
  (stripDescriptor title ≠ title →
     0 < IndexAny title ":-"
     ∧ TrimSpace (substring 0 (Z.to_nat (IndexAny title ":-")) title) ≠ ""
     ∧ forallb (λ r, IsLetter r || IsSpace r)
         (Runes (TrimSpace
                   (substring 0 (Z.to_nat (IndexAny title ":-")) title)))
       = true
     ∧ stripDescriptor title
       = TrimSpace
           (substring (Z.to_nat (IndexAny title ":-" + 1))
              (String.length title - Z.to_nat (IndexAny title ":-" + 1))
              title)
     ∧ stripDescriptor title ≠ "")
  ∧ ((∀ c, c ∈ list_ascii_of_string title → c ≠ ":"%char ∧ c ≠ "-"%char) →
     stripDescriptor title = title)
  ∧ (title ≠ "" → stripDescriptor title ≠ "").
Proof.
  assert (stripDescriptor title ≠ title →
     0 < IndexAny title ":-"
     ∧ TrimSpace (substring 0 (Z.to_nat (IndexAny title ":-")) title) ≠ ""
     ∧ forallb (λ r, IsLetter r || IsSpace r)
         (Runes (TrimSpace
                   (substring 0 (Z.to_nat (IndexAny title ":-")) title)))
       = true
     ∧ stripDescriptor title
       = TrimSpace
           (substring (Z.to_nat (IndexAny title ":-" + 1))
              (String.length title - Z.to_nat (IndexAny title ":-" + 1))
              title)
     ∧ stripDescriptor title ≠ "") as Hchange.
  { unfold stripDescriptor.
    destruct (Z.leb_spec (IndexAny title ":-") 0); [done|].
    case_bool_decide as Hp; [done|].
    destruct (forallb _ _) eqn:Hl; simpl; [|done].
    case_bool_decide as Hr; [done|]. done. }
  split_and!; [done| |].
  - intros Hnone.
    assert (indexAny title ":-" = None) as Hi.
    { apply indexAny_None. intros c Hc. destruct (Hnone c Hc) as [Hc1 Hc2].
      simpl. rewrite orb_false_r.
      apply orb_false_iff. split; by apply Ascii.eqb_neq. }
    unfold stripDescriptor, IndexAny. by rewrite Hi.
  - intros Hne. destruct (decide (stripDescriptor title = title)) as [->|Hd];
      [done|]. by apply Hchange.
Qed.

(** ** The order of the rows *)

Lemma groupStep_fold (items : list Item) :
  let '(byRepo, repos) := fold_left groupStep items (∅, []) in
  (∀ r, default [] (byRepo !! r) = filter (λ it, Repo it = r) items)
  ∧ (∀ r, is_Some (byRepo !! r) ↔ r ∈ repos)
  ∧ NoDup repos
  ∧ (∀ r, r ∈ repos ↔ ∃ it, it ∈ items ∧ Repo it = r).
Proof.
  induction items as [|x items IH] using rev_ind.
  - simpl. split_and!.
    + intros r. by rewrite lookup_empty.
    + intros r. rewrite lookup_empty. split; [by intros [? ?]|].
      by intros ?%elem_of_nil.
    + apply NoDup_nil_2.
    + intros r. split; [by intros ?%elem_of_nil|].
      intros (it & ?%elem_of_nil & _). done.
  - rewrite fold_left_app. simpl.
    destruct (fold_left groupStep items (∅, [])) as [m rs].
    destruct IH as (Hf & Hs & Hnd & Hin). unfold groupStep. split_and!.
    + intros r. rewrite filter_app. destruct (decide (Repo x = r)) as [<-|Hne].
      * rewrite lookup_insert_eq. simpl. rewrite Hf.
        by rewrite (filter_cons_True _ x []).
      * rewrite lookup_insert_ne by done. rewrite Hf.
        rewrite (filter_cons_False _ x []) by done. by rewrite app_nil_r.
    + intros r. destruct (decide (Repo x = r)) as [<-|Hne].
      * rewrite lookup_insert_eq. split; [intros _|eauto].
        destruct (m !! Repo x) eqn:Hm; [apply Hs; eauto|].
        apply elem_of_app. right. by left.
      * rewrite lookup_insert_ne by done. rewrite Hs.
        destruct (m !! Repo x); [done|]. rewrite elem_of_app.
        split; [by left|]. intros [?|?%list_elem_of_singleton]; done.
    + destruct (m !! Repo x) eqn:Hm; [done|].
      apply NoDup_app. split_and!; [done| |apply NoDup_singleton].
      intros r Hr ->%list_elem_of_singleton.
      apply Hs in Hr as [? Hr]. congruence.
    + intros r.
      assert (r ∈ (match m !! Repo x with
                   | Some _ => rs
                   | None => rs ++ [Repo x]
                   end) ↔ r ∈ rs ∨ r = Repo x) as ->.
      { destruct (m !! Repo x) eqn:Hm.
        - split; [by left|]. intros [?| ->]; [done|]. apply Hs. eauto.
        - rewrite elem_of_app, list_elem_of_singleton. done. }
      rewrite Hin. split.
      * intros [(it & Hit & Hr)| ->].
        -- exists it. split; [|done]. apply elem_of_app. by left.
        -- exists x. split; [|done]. apply elem_of_app. right. by left.
      * intros (it & [Hit|Hit%list_elem_of_singleton]%elem_of_app & Hr).
        -- left. eauto.
        -- right. by subst.
Qed.

Lemma flat_map_filter_perm (items : list Item) (l : list string) :
  NoDup l → (∀ it, it ∈ items → Repo it ∈ l) →
  flat_map (λ r, filter (λ it, Repo it = r) items) l ≡ₚ items.
Proof.
  revert items. induction l as [|r l IH]; intros items Hnd Hall.
  - destruct items as [|it items]; [done|].
    pose proof (Hall it ltac:(left)) as Hx. by apply elem_of_nil in Hx.
  - apply NoDup_cons in Hnd as [Hr Hnd]. simpl.
    etrans; [|apply (filter_app_complement (λ it, Repo it = r) items)].
    apply Permutation_app; [done|].
    rewrite <- (IH (filter (λ it, ¬ Repo it = r) items) Hnd).
    + clear IH Hnd Hall.
      induction l as [|r' l IHl]; simpl; [done|].
      apply Permutation_app.
      * rewrite list_filter_filter. apply Permutation_refl'.
        apply list_filter_iff. intros it. split; [|naive_solver].
        intros Heq. split; [done|]. intros Heq'. apply Hr.
        rewrite <- Heq', Heq. left.
      * apply IHl. intros ?. apply Hr. by right.
    + intros it [Hne Hit]%list_elem_of_filter.
      apply Hall in Hit. apply elem_of_cons in Hit as [?|?]; done.
Qed.

Lemma snd_repoRows (r : string) (l : list Item) : (repoRows r l).*2 = l.
Proof.
  destruct l as [|it l]; simpl; [done|]. f_equal.
  rewrite <- list_fmap_compose. apply list_fmap_id.
Qed.

Lemma printOrder_grouped (items : list Item) :
  ∃ repos,
    NoDup repos ∧ StronglySorted String.le repos
    ∧ (∀ r, r ∈ repos ↔ ∃ it, it ∈ items ∧ Repo it = r)
    ∧ printOrder items
      = flat_map (λ r, repoRows r (filter (λ it, Repo it = r) items)) repos.
Proof.
  unfold printOrder. pose proof (groupStep_fold items) as HG.
  destruct (fold_left groupStep items (∅, [])) as [m rs].
  destruct HG as (Hf & Hs & Hnd & Hin).
  exists (sortStrings rs). unfold sortStrings.
  pose proof (merge_sort_Permutation String.le rs) as Hp.
  split_and!.
  - by rewrite Hp.
  - apply StronglySorted_merge_sort; apply _.
  - intros r. by rewrite Hp.
  - apply flat_map_ext. intros r. by rewrite Hf.
Qed.

(** X19: [printGrouped] writes the rows repository by repository, the
    repositories in strictly increasing order of their names; the rows of a
    repository are its items in the order given, the name is in the first
    of them only; every item has its row, once. *)
Theorem printOrder_spec (items : list Item) :
  ∃ repos,
    NoDup repos ∧ StronglySorted String.le repos
    ∧ (∀ r, r ∈ repos ↔ ∃ it, it ∈ items ∧ Repo it = r)
    ∧ printOrder items
      = flat_map (λ r, repoRows r (filter (λ it, Repo it = r) items)) repos
    ∧ (printOrder items).*2
      = flat_map (λ r, filter (λ it, Repo it = r) items) repos
    ∧ (printOrder items).*2 ≡ₚ items.
Proof.
  destruct (printOrder_grouped items) as (repos & Hnd & Hs & Hin & Heq).
  assert ((printOrder items).*2
          = flat_map (λ r, filter (λ it, Repo it = r) items) repos) as Hsnd.
  { rewrite Heq. clear. induction repos as [|r repos IH]; simpl; [done|].
    by rewrite fmap_app, snd_repoRows, IH. }
  exists repos. split_and!; try done.
  rewrite Hsnd. apply flat_map_filter_perm; [done|].
  intros it Hit. apply Hin. eauto.
Qed.

(** X20: for no items [printGrouped] writes the one row that says so; for a
    title width of at least zero it does not panic and writes one row per
    item, the rows of [printOrder] in their order. *)
Theorem printGrouped_rows (items : list Item) (titleWidth : Z) :
  (items = [] →
     printGrouped items titleWidth
     = Some [("(none)" ++ tab ++ tab ++ tab ++ newline)%string])
  ∧ (0 ≤ titleWidth → items ≠ [] →
     ∃ rows, printGrouped items titleWidth = Some rows
             ∧ length rows = length items
             ∧ Forall2 (λ row text, printRow titleWidth row = Some text)
                       (printOrder items) rows).
Proof.
  split; [by intros ->|]. intros Hw Hne.
  assert (∀ row, is_Some (printRow titleWidth row)) as Hrow.
  { intros [cell it]. unfold printRow, truncateTitle.
    repeat case_match; simplify_eq; eauto.
    exfalso. repeat match goal with
             | H : (_ <? _) = true |- _ => apply Z.ltb_lt in H
             end. lia. }
  assert (is_Some (mapM (printRow titleWidth) (printOrder items))) as [rows Hrows].
  { apply mapM_is_Some, Forall_forall. intros row _. apply Hrow. }
  exists rows. split_and!.
  - unfold printGrouped. by destruct items.
  - apply length_mapM in Hrows. rewrite <- Hrows.
    destruct (printOrder_grouped items) as (repos & Hnd & _ & Hin & Heq).
    rewrite <- (length_fmap snd).
    assert ((printOrder items).*2 ≡ₚ items) as ->; [|done].
    rewrite Heq.
    assert ((flat_map (λ r, repoRows r (filter (λ it, Repo it = r) items))
               repos).*2
            = flat_map (λ r, filter (λ it, Repo it = r) items) repos) as ->.
    { clear. induction repos as [|r repos IH]; simpl; [done|].
      by rewrite fmap_app, snd_repoRows, IH. }
    apply flat_map_filter_perm; [done|]. intros it Hit. apply Hin. eauto.
  - by apply mapM_Some.
Qed.

End ReportProperties.

(** ** The printed report *)

Section PrinterProperties.
Context `{!GoStrings} `{!GoUnicode} `{!Clock} {T : Type}.
Implicit Types (s : Scanner T) (res : Result).

Lemma containsByte_app (a b : string) (c : ascii) :
  containsByte (a ++ b) c = containsByte a c || containsByte b c.
Proof.
  induction a as [|d a IH]; simpl; [done|]. by rewrite IH, orb_assoc.
Qed.

Lemma printRow_hash (w : Z) (row : string * Item) (text : string) :
  printRow w row = Some text → containsByte text "#" = true.
Proof.
  destruct row as [cell it]. unfold printRow.
  destruct (truncateTitle _ _); [|done]. intros [= <-].
  rewrite !containsByte_app. cbn [containsByte].
  rewrite Ascii.eqb_refl. simpl. by rewrite !orb_true_r.
Qed.

Lemma tables_app (a b : list chunk) : tables (a ++ b) = tables a ++ tables b.
Proof. unfold tables. apply omap_app. Qed.

Lemma tables_summary res : tables (summary res) = [].
Proof.
  unfold summary.
  by destruct (ResIncludeIssues res), (ResIncludePRs res).
Qed.

Lemma printGrouped_70 (items : list Item) :
  items ≠ [] → ∃ rows, printGrouped items 70 = Some rows ∧ rowsOf items rows.
Proof.
  intros Hne.
  assert (∀ row, is_Some (printRow 70 row)) as Hrow.
  { intros [cell it]. unfold printRow, truncateTitle.
    repeat case_match; simplify_eq; eauto. }
  assert (is_Some (mapM (printRow 70) (printOrder items))) as [rows Hrows].
  { apply mapM_is_Some, Forall_forall. intros row _. apply Hrow. }
  exists rows. split; [unfold printGrouped; by destruct items|].
  by apply mapM_Some.
Qed.

Lemma printSection_tables (label : string) (items : list Item)
    (audience : Audience) :
  Fields label ≠ [] →
  ∃ out, printSection label items audience = Some out
         ∧ Forall2 rowsOf (filter (λ l, l ≠ []) [items]) (tables out).
Proof.
  intros Hf. destruct items as [|it items].
  - exists []. split; [done|]. rewrite filter_cons_False by naive_solver.
    constructor.
  - destruct (printGrouped_70 (it :: items)) as (rows & Hrows & Hof); [done|].
    unfold printSection. rewrite Hrows.
    destruct (Fields label); [done|]. eexists. split; [done|].
    rewrite filter_cons_True by done. cbn. by repeat constructor.
Qed.

Lemma Print_tables res :
  Forall (λ label, Fields label ≠ []) sectionLabels →
  ∃ out, Print res = Some out
         ∧ Forall2 rowsOf (filter (λ l, l ≠ []) (shown res)) (tables out)
         ∧ (summary res `suffix_of` out).
Proof.
  intros Hl. unfold sectionLabels in Hl.
  apply Forall_cons in Hl as [L1 Hl]. apply Forall_cons in Hl as [L2 Hl].
  apply Forall_cons in Hl as [L3 Hl]. apply Forall_cons in Hl as [L4 _].
  destruct (printSection_tables _ (ExternalIssues res) (ResAudience res) L1)
    as (o1 & E1 & F1).
  destruct (printSection_tables _ (InternalIssues res) (ResAudience res) L2)
    as (o2 & E2 & F2).
  destruct (printSection_tables _ (ExternalPRs res) (ResAudience res) L3)
    as (o3 & E3 & F3).
  destruct (printSection_tables _ (InternalPRs res) (ResAudience res) L4)
    as (o4 & E4 & F4).
  unfold Print, shown. rewrite E1, E2, E3, E4.
  destruct (ResIncludeIssues res), (ResIncludePRs res);
    (eexists; split; [done|]); (split; [|by eexists; rewrite ?app_assoc]);
    rewrite !tables_app, tables_summary, ?app_nil_r; simpl tables;
    rewrite ?app_nil_r.
  - change [ExternalIssues res; InternalIssues res]
      with ([ExternalIssues res] ++ [InternalIssues res]).
    change [ExternalPRs res; InternalPRs res]
      with ([ExternalPRs res] ++ [InternalPRs res]).
    rewrite !filter_app. by repeat apply Forall2_app.
  - change [ExternalIssues res; InternalIssues res]
      with ([ExternalIssues res] ++ [InternalIssues res]).
    rewrite !filter_app. by repeat apply Forall2_app.
  - change [ExternalPRs res; InternalPRs res]
      with ([ExternalPRs res] ++ [InternalPRs res]).
    rewrite !filter_app. by repeat apply Forall2_app.
  - constructor.
Qed.

Lemma rowsOf_concat (lists : list (list Item)) (tabs : list (list string)) :
  Forall2 rowsOf lists tabs →
  Forall2 (λ row text, printRow 70 row = Some text)
          (flat_map printOrder lists) (concat tabs).
Proof.
  induction 1 as [|items rows lists tabs Hr _ IH]; simpl; [constructor|].
  by apply Forall2_app.
Qed.

Lemma printOrder_items (items : list Item) : (printOrder items).*2 ≡ₚ items.
Proof.
  destruct (printOrder_grouped items) as (repos & Hnd & _ & Hin & Heq).
  rewrite Heq.
  assert ((flat_map (λ r, repoRows r (filter (λ it, Repo it = r) items))
             repos).*2
          = flat_map (λ r, filter (λ it, Repo it = r) items) repos) as ->.
  { clear. induction repos as [|r repos IH]; simpl; [done|].
    by rewrite fmap_app, snd_repoRows, IH. }
  apply flat_map_filter_perm; [done|]. intros it Hit. apply Hin. eauto.
Qed.

Lemma flat_map_printOrder_items (lists : list (list Item)) :
  (flat_map printOrder (filter (λ l, l ≠ []) lists)).*2 ≡ₚ concat lists.
Proof.
  induction lists as [|items lists IH]; [done|].
  rewrite filter_cons. case_decide as Hd; simpl.
  - by rewrite fmap_app, printOrder_items, IH.
  - by subst.
Qed.

(** X21: for labels that have a first word, as the four of the sections do,
    [Print] does not panic.  It writes one table for every non-empty list of
    an included category, in the order external issues, internal issues,
    external prs, internal prs, each with the rows of [printGrouped] for a
    title width of 70; the row that says there is none is never written;
    the summary comes last. *)
Theorem Print_spec res :
  Forall (λ label, Fields label ≠ []) sectionLabels →
  ∃ out, Print res = Some out
         ∧ Forall2 (λ items rows,
                      items ≠ [] ∧ length rows = length items
                      ∧ Forall2 (λ row text, printRow 70 row = Some text)
                                (printOrder items) rows)
                   (filter (λ l, l ≠ []) (shown res)) (tables out)
         ∧ (noneRow ∉ concat (tables out))
         ∧ (summary res `suffix_of` out).
Proof.
  intros Hl. destruct (Print_tables res Hl) as (out & HP & HF & Hs).
  exists out. split_and!; [done| | |done].
  - clear -HF.
    assert (Forall (λ l : list Item, l ≠ [])
              (filter (λ l, l ≠ []) (shown res))) as Hne.
    { apply Forall_forall. by intros l [? _]%list_elem_of_filter. }
    induction HF as [|items rows lists tabs Hr _ IH]; [constructor|].
    apply Forall_cons in Hne as [Hne Hrest].
    constructor; [|by apply IH].
    split_and!; [done| |done].
    apply Forall2_length in Hr. rewrite <- Hr, <- (length_fmap snd).
    by rewrite printOrder_items.
  - intros Hin. apply rowsOf_concat in HF.
    apply list_elem_of_lookup in Hin as [i Hi].
    destruct (Forall2_lookup_r _ _ _ _ _ HF Hi) as (row & _ & Hrow).
    by apply printRow_hash in Hrow.
Qed.

(** X22: the report of a scan that returned without error has a row for
    every item of the Result, once: the rows of its tables, taken together,
    are the rows of a rearrangement of the items of the four lists. *)
Theorem Scan_result_printed s ctx n sch res :
  Forall (λ label, Fields label ≠ []) sectionLabels →
  Scan s ctx n sch = Returned res None →
  ∃ out rows,
    Print res = Some out
    ∧ Forall2 (λ row text, printRow 70 row = Some text)
              rows (concat (tables out))
    ∧ rows.*2 ≡ₚ allItems res
    ∧ length (concat (tables out)) = length (allItems res).
Proof.
  intros Hl (st & Hst & Hmain)%Scan_returned.
  destruct (flagsOK_stateAt _ _ _ _ _ Hst) as [_ Hm]. rewrite Hmain in Hm.
  destruct Hm as ((Hi & Hp & _) & Hdis).
  destruct (Print_tables res Hl) as (out & HP & HF & _).
  assert (concat (shown res) = allItems res) as Hshown.
  { unfold shown, allItems. rewrite Hi, Hp.
    pose proof (Hdis false) as Hf. pose proof (Hdis true) as Ht.
    unfold enabled in Hf, Ht. simpl in Hf, Ht.
    destruct (IncludeIssues (cfg s)), (IncludePRs (cfg s)); simpl;
      rewrite ?app_nil_r; try done.
    - destruct Ht as [-> ->]; [done|]. by rewrite !app_nil_r.
    - by destruct Hf as [-> ->].
    - destruct Hf as [-> ->]; [done|]. by destruct Ht as [-> ->]. }
  exists out, (flat_map printOrder (filter (λ l, l ≠ []) (shown res))).
  assert ((flat_map printOrder (filter (λ l, l ≠ []) (shown res))).*2
          ≡ₚ allItems res) as Hperm.
  { by rewrite flat_map_printOrder_items, Hshown. }
  split_and!; [done|by apply rowsOf_concat|done|].
  apply rowsOf_concat, Forall2_length in HF.
  by rewrite <- HF, <- (length_fmap snd), Hperm.
Qed.

End PrinterProperties.

(** * The added properties at work *)

Section MoreExamples.
Local Existing Instance ascii_strings.
Local Existing Instance ascii_unicode.
Local Existing Instance Demo2.clock.

(** The rows of a small report. *)
Example printGrouped_demo :
  printGrouped Demo2.items 70
  = Some [("infra-core" ++ tab ++ "#1" ++ tab ++ "disk full" ++ tab ++ "today"
           ++ tab ++ "alice" ++ newline)%string;
          (tab ++ "#2" ++ tab ++ "readme" ++ tab ++ "1 day" ++ tab ++ "carol"
           ++ newline)%string;
          ("infra-net" ++ tab ++ "#4" ++ tab ++ "add wip peering" ++ tab
           ++ "1 week" ++ tab ++ "dave" ++ newline)%string;
          (tab ++ "#9" ++ tab ++ "fix typo" ++ tab ++ "2 years" ++ tab ++ "bob"
           ++ newline)%string].
Proof. vm_compute. reflexivity. Qed.

(** The scanner the command builds from its options. *)
Example runSetup_demo :
  runSetup " t0k3n " (λ _, Demo.client) Demo2.options
  = inr (mkScanner
           (mkConfig "acme" "infra-" ["bob"; "dependabot[bot]"] true false
                     AudienceExternal)
           Demo.client
           (buildSkipMap ["bob"; "dependabot[bot]"])).
Proof. vm_compute. reflexivity. Qed.

Lemma New_skips_configured_users_witness :
  New (Demo.config ["Bob "] "") (Some Demo.client)
    = inr (Demo.scanner ["Bob "] AudienceAll Demo.client)
  ∧ skipped (Demo.scanner ["Bob "] AudienceAll Demo.client) "BOB" = true.
Proof.
  assert (New (Demo.config ["Bob "] "") (Some Demo.client)
          = inr (Demo.scanner ["Bob "] AudienceAll Demo.client)) as HN
    by (vm_compute; reflexivity).
  split; [exact HN|].
  apply (proj2 (New_skips_configured_users (Demo.config ["Bob "] "")
                  (Some Demo.client)
                  (Demo.scanner ["Bob "] AudienceAll Demo.client) "BOB" HN)).
  split; [discriminate|]. split; [discriminate|].
  exists "Bob ". split; [left | vm_compute; reflexivity].
Defined.

Lemma Scan_items_pass_filters_witness :
  Scan (Demo.scanner ["bob"] AudienceAll Demo.client) None () Demo.calm
    = Returned
        (mkResult [] [mkItem "infra-core" 1 "disk full" "alice" 1700000000]
                  [] [] 1 true true AudienceAll)
        None
  ∧ HasPrefix "infra-core" "infra-" = true
  ∧ skipped (Demo.scanner ["bob"] AudienceAll Demo.client) "alice" = false.
Proof.
  assert (Scan (Demo.scanner ["bob"] AudienceAll Demo.client) None ()
            Demo.calm
          = Returned
              (mkResult [] [mkItem "infra-core" 1 "disk full" "alice" 1700000000]
                        [] [] 1 true true AudienceAll)
              None) as HS by (vm_compute; reflexivity).
  split; [exact HS|].
  refine (proj2 (Scan_items_pass_filters _ _ _ _ _ HS
                   (mkItem "infra-core" 1 "disk full" "alice" 1700000000) _)).
  unfold allItems. simpl. left.
Defined.

Lemma Scan_audience_lists_witness :
  Scan (Demo.scanner [] AudienceInternal Demo.client) None () Demo.calm
    = Returned
        (mkResult [] [mkItem "infra-core" 1 "disk full" "alice" 1700000000]
                  [] [] 1 true true AudienceInternal)
        None
  ∧ CfgAudience (cfg (Demo.scanner [] AudienceInternal Demo.client))
    = AudienceInternal
  ∧ ExternalIssues
      (mkResult [] [mkItem "infra-core" 1 "disk full" "alice" 1700000000]
                [] [] 1 true true AudienceInternal) = []
  ∧ ExternalPRs
      (mkResult [] [mkItem "infra-core" 1 "disk full" "alice" 1700000000]
                [] [] 1 true true AudienceInternal) = [].
Proof.
  assert (Scan (Demo.scanner [] AudienceInternal Demo.client) None ()
            Demo.calm
          = Returned
              (mkResult [] [mkItem "infra-core" 1 "disk full" "alice" 1700000000]
                        [] [] 1 true true AudienceInternal)
              None) as HS by (vm_compute; reflexivity).
  split; [exact HS|]. split; [reflexivity|].
  exact (proj1 (Scan_audience_lists _ _ _ _ _ HS) eq_refl).
Defined.

Lemma Scan_listed_repos_counted_witness :
  Scan (Demo.scanner [] AudienceAll Demo.client) None () Demo.calm
    = Returned
        (mkResult [] [mkItem "infra-core" 1 "disk full" "alice" 1700000000]
                  [mkItem "infra-core" 2 "fix typo" "bob" 1700000100] []
                  1 true true AudienceAll)
        None
  ∧ uniqueRepoCount
      [mkItem "infra-core" 1 "disk full" "alice" 1700000000;
       mkItem "infra-core" 2 "fix typo" "bob" 1700000100] ≤ 1.
Proof.
  assert (Scan (Demo.scanner [] AudienceAll Demo.client) None () Demo.calm
          = Returned
              (mkResult [] [mkItem "infra-core" 1 "disk full" "alice" 1700000000]
                        [mkItem "infra-core" 2 "fix typo" "bob" 1700000100] []
                        1 true true AudienceAll)
              None) as HS by (vm_compute; reflexivity).
  split; [exact HS|].
  exact (proj1 (Scan_listed_repos_counted _ _ _ _ _ HS)).
Defined.

Lemma Scan_result_flags_witness :
  Scan (Demo.scanner [] AudienceAll Demo.brokenClient) None () Demo.hasty
    = Returned (mkResult [] [] [] [] 0 true true AudienceAll) (Some "boom")
  ∧ ResAudience (mkResult [] [] [] [] 0 true true AudienceAll)
    = CfgAudience (cfg (Demo.scanner [] AudienceAll Demo.brokenClient)).
Proof.
  assert (Scan (Demo.scanner [] AudienceAll Demo.brokenClient) None ()
            Demo.hasty
          = Returned (mkResult [] [] [] [] 0 true true AudienceAll)
                     (Some "boom")) as HS by (vm_compute; reflexivity).
  split; [exact HS|].
  exact (proj1 (proj2 (proj2 (Scan_result_flags _ _ _ _ _ _ HS)))).
Defined.

Lemma Scan_cancels_only_on_failure_or_return_witness :
  ∃ st,
    stateAt (Demo.scanner [] AudienceAll Demo.client) None ()
      [ARun false; ARun true; ARun false] = Some st
    ∧ cancelled st = false
    ∧ ctxDone st = ctxErr (parent st).
Proof.
  eexists. split; [reflexivity|]. split; [reflexivity|].
  exact (proj2 (Scan_cancels_only_on_failure_or_return
                  (Demo.scanner [] AudienceAll Demo.client) None ()
                  [ARun false; ARun true; ARun false] _ eq_refl) eq_refl).
Defined.

Lemma Scan_returns_when_settled_witness :
  ∃ st,
    stateAt (Demo.scanner [] AudienceAll Demo.client) None ()
      [ARun false; ARun true; ARun false; ARun true] = Some st
    ∧ settled st
    ∧ ∃ res,
        Scan (Demo.scanner [] AudienceAll Demo.client) None ()
          ([ARun false; ARun true; ARun false; ARun true]
           ++ [AMain; ACloser; AParent; AMain; ARun true; AMain; AMain])
        = Returned res None.
Proof.
  eexists. split; [reflexivity|].
  assert (settled
            (run (Demo.scanner [] AudienceAll Demo.client)
               [ARun false; ARun true; ARun false; ARun true]
               (mkState () Background false (WFetch None [] [] ∅)
                  (WFetch None [] [] ∅) [] false
                  (MLoop (mkResult [] [] [] [] 0 true true AudienceAll) ∅))))
    as Hs by (intros []; reflexivity).
  split; [exact Hs|].
  exact (Scan_returns_when_settled
           (Demo.scanner [] AudienceAll Demo.client) None ()
           [ARun false; ARun true; ARun false; ARun true] _
           [AMain; ACloser; AParent; AMain; ARun true; AMain; AMain]
           eq_refl Hs eq_refl).
Defined.

Lemma Scan_result_independent_of_schedule_witness :
  pureClient (Demo.scanner [] AudienceAll Demo2.steadyClient) Demo2.answers
  ∧ Scan (Demo.scanner [] AudienceAll Demo2.steadyClient) None () Demo.calm
    = Returned
        (mkResult [] [mkItem "infra-core" 1 "disk full" "alice" 1700000000]
                  [mkItem "infra-core" 2 "fix typo" "bob" 1700000100] []
                  1 true true AudienceAll)
        None
  ∧ Scan (Demo.scanner [] AudienceAll Demo2.steadyClient)
         (Some (Cancelable true)) () Demo2.prsFirst
    = Returned
        (mkResult [] [mkItem "infra-core" 1 "disk full" "alice" 1700000000]
                  [mkItem "infra-core" 2 "fix typo" "bob" 1700000100] []
                  1 true true AudienceAll)
        None.
Proof.
  assert (pureClient (Demo.scanner [] AudienceAll Demo2.steadyClient)
            Demo2.answers) as Hpure by (intros n d q p c; reflexivity).
  assert (Scan (Demo.scanner [] AudienceAll Demo2.steadyClient) None ()
            Demo.calm
          = Returned
              (mkResult [] [mkItem "infra-core" 1 "disk full" "alice" 1700000000]
                        [mkItem "infra-core" 2 "fix typo" "bob" 1700000100] []
                        1 true true AudienceAll)
              None) as HS by (vm_compute; reflexivity).
  assert (∃ res, Scan (Demo.scanner [] AudienceAll Demo2.steadyClient)
                   (Some (Cancelable true)) () Demo2.prsFirst
                 = Returned res None) as [res HS']
    by (eexists; vm_compute; reflexivity).
  split; [exact Hpure|]. split; [exact HS|].
  rewrite HS'. f_equal. symmetry.
  exact (Scan_result_independent_of_schedule _ _ _ _ _ _ _ _ _ _
           Hpure HS HS').
Defined.

(** The report of two internal issues, pull requests not included. *)
Example Print_demo :
  Print (mkResult [] (take 2 Demo2.items) [] [] 2 true false AudienceAll)
  = Some [Text (newline ++ bold "internal issues (2)" ++ newline)%string;
          Text (bold "audience (all)" ++ newline)%string;
          Text (bold "repos (2)" ++ newline ++ newline)%string;
          Table [("infra-core" ++ tab ++ "#1" ++ tab ++ "disk full" ++ tab
                  ++ "today" ++ tab ++ "alice" ++ newline)%string;
                 ("infra-net" ++ tab ++ "#4" ++ tab ++ "add wip peering"
                  ++ tab ++ "1 week" ++ tab ++ "dave" ++ newline)%string];
          Text newline;
          Text (newline ++ bold "summary" ++ newline)%string;
          Text (bold "repositories scanned (2)" ++ newline)%string;
          Text (bold "issues (0 external, 2 internal)" ++ newline)%string].
Proof. vm_compute. reflexivity. Qed.

Lemma Print_spec_witness :
  Forall (λ label, Fields label ≠ []) sectionLabels
  ∧ ∃ out,
      Print (mkResult [] (take 2 Demo2.items) [] [] 2 true false AudienceAll)
      = Some out
      ∧ noneRow ∉ concat (tables out).
Proof.
  assert (Forall (λ label, Fields label ≠ []) sectionLabels) as HL
    by (repeat constructor; vm_compute; discriminate).
  split; [exact HL|].
  destruct (Print_spec
              (mkResult [] (take 2 Demo2.items) [] [] 2 true false AudienceAll)
              HL) as (out & HP & _ & Hnone & _).
  exists out. split; [exact HP | exact Hnone].
Defined.

Lemma Scan_result_printed_witness :
  Forall (λ label, Fields label ≠ []) sectionLabels
  ∧ Scan (Demo.scanner [] AudienceAll Demo.client) None () Demo.calm
    = Returned
        (mkResult [] [mkItem "infra-core" 1 "disk full" "alice" 1700000000]
                  [mkItem "infra-core" 2 "fix typo" "bob" 1700000100] []
                  1 true true AudienceAll)
        None
  ∧ ∃ out,
      Print (mkResult [] [mkItem "infra-core" 1 "disk full" "alice" 1700000000]
                      [mkItem "infra-core" 2 "fix typo" "bob" 1700000100] []
                      1 true true AudienceAll)
      = Some out
      ∧ length (concat (tables out)) = 2%nat.
Proof.
  assert (Forall (λ label, Fields label ≠ []) sectionLabels) as HL
    by (repeat constructor; vm_compute; discriminate).
  assert (Scan (Demo.scanner [] AudienceAll Demo.client) None () Demo.calm
          = Returned
              (mkResult [] [mkItem "infra-core" 1 "disk full" "alice" 1700000000]
                        [mkItem "infra-core" 2 "fix typo" "bob" 1700000100] []
                        1 true true AudienceAll)
              None) as HS by (vm_compute; reflexivity).
  split; [exact HL|]. split; [exact HS|].
  destruct (Scan_result_printed _ _ _ _ _ HL HS)
    as (out & rows & HP & _ & _ & Hlen).
  exists out. split; [exact HP | exact Hlen].
Defined.

End MoreExamples.
